(** * Assignment2: the chemical-formula expander, its validator and its proton counter

    A shallow embedding of [unionStack.c], [periodicTable.c],
    [formulaExpander.c] and [parseFormula.c], and the properties of the
    expansion engine and of the program around it.

    Conventions of the embedding.
    - A C string is the list of its characters before the terminating NUL;
      reading at or past the end ([*(p + k)]) yields the NUL character.
    - [int] values are integers of [Z].  A multiplier is computed from the
      text of the formula, and a value above [INT_MAX] is signed overflow:
      the run ends there with the fault [IntOverflow].  So does a write past
      the end of [tempArray], with [TempArrayOverflow].  The counter [size]
      of a stack and the proton total are plain [Z]: the embedding follows
      the program as long as they fit an [int].
    - [malloc] and [realloc] succeed, so every push returns [EXIT_SUCCESS]
      and [processFormula] never returns NULL.
    - Character classes are those of the C locale: only ASCII letters and
      digits are classified.
    - The loops whose cursor or stack does not shrink by one node or one
      character at a time recurse on a bound ([fuel]); the bounds are shown
      to be large enough in [processFormula_finishes] and
      [countProtons_finishes]. *)

From Stdlib Require Import Ascii String ZArith Bool Lia Arith List.
From Stdlib Require Permutation Sorted DecimalString.
Import ListNotations.

Local Open Scope Z_scope.

(** ** C strings and character classes ([ctype.h]) *)

Definition cstring := list ascii.

Coercion list_ascii_of_string : string >-> list.

Definition NUL : ascii := Ascii.zero.

Definition code (c : ascii) : Z := Z.of_N (N_of_ascii c).

Definition isupper (c : ascii) : bool := (65 <=? code c) && (code c <=? 90).
Definition islower (c : ascii) : bool := (97 <=? code c) && (code c <=? 122).
Definition isalpha (c : ascii) : bool := isupper c || islower c.
Definition isdigit (c : ascii) : bool := (48 <=? code c) && (code c <=? 57).

(** [*(p + k)]: the character [k] places after the cursor. *)
Definition peek (p : cstring) (k : nat) : ascii := nth k p NUL.

(** [p += k]. *)
Definition advance (k : nat) (p : cstring) : cstring := skipn k p.

(** [strcmp(a, b) == 0]. *)
Fixpoint strcmp0 (a b : cstring) : bool :=
  match a, b with
  | [], [] => true
  | x :: a', y :: b' => Ascii.eqb x y && strcmp0 a' b'
  | _, _ => false
  end.

(** ** periodicTable.h / periodicTable.c *)

Definition MAX_ELEMENTS : nat := 118.

Record Element := mkElement { chemSymbol : cstring; atomicNumber : Z }.

(** [getAtomicNumber(elements, n, symbol)]: the first of the first [n]
    entries whose symbol is [symbol], and -1 when there is none. *)
Fixpoint getAtomicNumber (elements : list Element) (n : nat) (symbol : cstring) : Z :=
  match n, elements with
  | S n', e :: elements' =>
      if strcmp0 (chemSymbol e) symbol then atomicNumber e
      else getAtomicNumber elements' n' symbol
  | _, _ => -1
  end.

(** ** unionStack.h / unionStack.c *)

Definition EXIT_SUCCESS : Z := 0.
Definition EXIT_FAILURE : Z := 1.

Inductive StackDataType := CHAR_TYPE | ELEMENT_TYPE.

(** A node's payload: the union [StackData] together with its tag. *)
Inductive StackNode :=
| CharNode (charData : ascii)
| ElementNode (elementData : Element).

Definition dataType (n : StackNode) : StackDataType :=
  match n with
  | CharNode _ => CHAR_TYPE
  | ElementNode _ => ELEMENT_TYPE
  end.

(** The linked list hanging from [top] (NULL is the empty list) and the
    counter [size]. *)
Record UnionStack := mkStack { top : list StackNode; size : Z }.

Definition initUnionStack : UnionStack := {| top := []; size := 0 |}.

Definition isEmptyUnion (stack : UnionStack) : bool :=
  match top stack with
  | [] => true
  | _ :: _ => false
  end.

Definition pushCharUnion (stack : UnionStack) (c : ascii) : Z * UnionStack :=
  (EXIT_SUCCESS, {| top := CharNode c :: top stack; size := size stack + 1 |}).

Definition pushElementUnion (stack : UnionStack) (element : Element) : Z * UnionStack :=
  (EXIT_SUCCESS, {| top := ElementNode element :: top stack; size := size stack + 1 |}).

(** The result of [popUnion]: the returned status, the stack afterwards and
    the contents of the two output cells [*returnValue] and [*returnType]
    (one [StackNode], or [None] while they have never been written). *)
Record PopResult := mkPop {
  popStatus : Z;
  popStack : UnionStack;
  popOut : option StackNode
}.

(** [popUnion(stack, returnValue, returnType)]; [out] is what the output
    cells held before the call. *)
Definition popUnion (stack : UnionStack) (out : option StackNode) : PopResult :=
  match top stack with
  | [] => {| popStatus := EXIT_FAILURE; popStack := stack; popOut := out |}
  | temp :: next =>
      let size' := size stack - 1 in
      {| popStatus := EXIT_SUCCESS;
         popStack := {| top := if size' =? 0 then [] else next; size := size' |};
         popOut := Some temp |}
  end.

(** ** formulaExpander.c: the tokenizer of [processFormula] *)

Definition MAX_FORMULA_LENGTH : nat := 1024.
Definition INT_MAX : Z := 2147483647.

(** Lines 59-76: the element read at the cursor, and by how much the branch
    itself moves the cursor (the loop adds one more at its end). *)
Definition readElement (p : cstring) : Element * nat :=
  if isupper (peek p 0) && islower (peek p 1) && islower (peek p 2) then
    ({| chemSymbol := [peek p 0; peek p 1; peek p 2]; atomicNumber := 1 |}, 2%nat)
  else if isupper (peek p 0) && islower (peek p 1) then
    ({| chemSymbol := [peek p 0; peek p 1]; atomicNumber := 1 |}, 1%nat)
  else
    ({| chemSymbol := [peek p 0]; atomicNumber := 1 |}, 0%nat).

(** Lines 233-251: the same step as written in [countProtons]. *)
Definition readElementCount (p : cstring) : Element * nat :=
  if isupper (peek p 0) && islower (peek p 1) && islower (peek p 2) then
    ({| chemSymbol := [peek p 0; peek p 1; peek p 2]; atomicNumber := 0 |}, 2%nat)
  else if isupper (peek p 0) && islower (peek p 1) then
    ({| chemSymbol := [peek p 0; peek p 1]; atomicNumber := 0 |}, 1%nat)
  else
    ({| chemSymbol := [peek p 0]; atomicNumber := 0 |}, 0%nat).

(** ** formulaExpander.c: [processFormula] *)

(** Where a run leaves the behaviour C defines. *)
Inductive Fault :=
| IntOverflow          (* a multiplier exceeds [INT_MAX] *)
| TempArrayOverflow.   (* a write past [tempArray[MAX_FORMULA_LENGTH - 1]] *)

(** The locals every [popUnion] call of [processFormula] works on: the
    stack it pops, the cells [poppedData]/[poppedType], and how many of the
    calls so far found the stack empty (each of them returns [EXIT_FAILURE]
    and prints a diagnostic). *)
Record ExpState := mkState {
  stack : UnionStack;
  popped : option StackNode;
  emptyPops : nat
}.

(** How a loop ends: normally, by a fault, or because the bound that makes
    the loop a structural recursion was too small. *)
Inductive Outcome (A : Type) :=
| Normal (a : A)
| Undefined (f : Fault) (st : ExpState)
| Starved (st : ExpState).
Arguments Normal {A} a.
Arguments Undefined {A} f st.
Arguments Starved {A} st.

Definition bind {A B : Type} (o : Outcome A) (k : A -> Outcome B) : Outcome B :=
  match o with
  | Normal a => k a
  | Undefined f st => Undefined f st
  | Starved st => Starved st
  end.

Notation "x <- o ;; k" := (bind o (fun x => k))
  (at level 61, o at next level, right associativity).
Notation "' pat <- o ;; k" := (bind o (fun x => match x with pat => k end))
  (at level 61, pat pattern, o at next level, right associativity).

(** [pushElementUnion(stack, element)], the status ignored as in the source. *)
Definition push (st : ExpState) (element : Element) : ExpState :=
  {| stack := snd (pushElementUnion (stack st) element);
     popped := popped st;
     emptyPops := emptyPops st |}.

(** [popUnion(stack, &poppedData, &poppedType)] and its status. *)
Definition pop (st : ExpState) : Z * ExpState :=
  let r := popUnion (stack st) (popped st) in
  (popStatus r,
   {| stack := popStack r;
      popped := popOut r;
      emptyPops := if popStatus r =? EXIT_SUCCESS then emptyPops st
                   else S (emptyPops st) |}).

(** [popUnion(...) == EXIT_SUCCESS && poppedType == ELEMENT_TYPE]: the
    element popped when the test holds, and the state after the call. *)
Definition popElement (st : ExpState) : option Element * ExpState :=
  let (status, st1) := pop st in
  if status =? EXIT_SUCCESS then
    match popped st1 with
    | Some (ElementNode e) => (Some e, st1)
    | _ => (None, st1)
    end
  else (None, st1).

(** [while (isdigit( *p)) { multiplier = multiplier * 10 + ( *p - '0'); p++; }]:
    the multiplier read and the cursor after the digits. *)
Fixpoint readMultiplier (multiplier : Z) (p : cstring) : option Z * cstring :=
  match p with
  | c :: rest =>
      if isdigit c then
        let m := multiplier * 10 + (code c - code "0") in
        if m <=? INT_MAX then readMultiplier m rest else (None, p)
      else (Some multiplier, p)
  | [] => (Some multiplier, p)
  end.

(** [for (i = 0; i < multiplier; i++) pushElementUnion(stack, element);] *)
Definition pushCopies (multiplier : Z) (element : Element) (st : ExpState) : ExpState :=
  Nat.iter (Z.to_nat multiplier) (fun s => push s element) st.

(** The marker pushed for an opening parenthesis. *)
Definition dummy : Element := {| chemSymbol := "("%string; atomicNumber := 0 |}.

(** Lines 104-106: pop into [tempArray] until the marker, a failed pop or a
    node that is no element.  [tempArray] is the filled part of the array,
    so [tempIndex] is its length. *)
Fixpoint popGroup (fuel : nat) (st : ExpState) (tempArray : list Element)
  : Outcome (list Element * ExpState) :=
  match popElement st with
  | (Some e, st1) =>
      if negb (strcmp0 (chemSymbol e) "("%string) then
        if (length tempArray <? MAX_FORMULA_LENGTH)%nat then
          match fuel with
          | O => Starved st1
          | S fuel' => popGroup fuel' st1 (tempArray ++ [e])
          end
        else Undefined TempArrayOverflow st1
      else Normal (tempArray, st1)
  | (None, st1) => Normal (tempArray, st1)
  end.

(** Lines 120-124: [groupMultiplier] times, push [tempArray[tempIndex - 1]]
    down to [tempArray[0]]. *)
Definition pushGroup (groupMultiplier : Z) (tempArray : list Element) (st : ExpState)
  : ExpState :=
  Nat.iter (Z.to_nat groupMultiplier) (fun s => fold_left push (rev tempArray) s) st.

(** Lines 109-117: the optional multiplier behind a closing parenthesis. *)
Definition readGroupMultiplier (p : cstring) : option Z * cstring :=
  if isdigit (peek p 0) then readMultiplier 0 p else (Some 1, p).

(** Lines 57-130: the scanning loop.  Every iteration moves the cursor, so
    [fuel] as large as the length of [p] is enough. *)
Fixpoint scan (fuel : nat) (p : cstring) (st : ExpState) : Outcome ExpState :=
  match p with
  | [] => Normal st
  | c :: _ =>
      match fuel with
      | O => Starved st
      | S fuel' =>
          if isalpha c then
            let (element, skip) := readElement p in
            scan fuel' (advance 1 (advance skip p)) (push st element)
          else if isdigit c then
            match readMultiplier 0 p with
            | (None, _) => Undefined IntOverflow st
            | (Some multiplier, p') =>
                match popElement st with
                | (Some e, st1) => scan fuel' p' (pushCopies multiplier e st1)
                | (None, st1) => scan fuel' p' st1
                end
            end
          else if Ascii.eqb c "(" then
            scan fuel' (advance 1 p) (push st dummy)
          else if Ascii.eqb c ")" then
            '(tempArray, st1) <- popGroup (length (top (stack st))) st [];;
            match readGroupMultiplier (advance 1 p) with
            | (None, _) => Undefined IntOverflow st1
            | (Some groupMultiplier, p') =>
                scan fuel' p' (pushGroup groupMultiplier tempArray st1)
            end
          else scan fuel' (advance 1 p) st
      end
  end.

(** Lines 136-140: empty the main stack into [tempStack]. *)
Fixpoint drainMain (fuel : nat) (st : ExpState) (tempStack : UnionStack)
  : Outcome (ExpState * UnionStack) :=
  if isEmptyUnion (stack st) then Normal (st, tempStack)
  else
    match fuel with
    | O => Starved st
    | S fuel' =>
        match popElement st with
        | (Some e, st1) => drainMain fuel' st1 (snd (pushElementUnion tempStack e))
        | (None, st1) => drainMain fuel' st1 tempStack
        end
    end.

(** Lines 142-162: empty [tempStack] (here the stack of [st]) into the
    output buffer, each symbol followed by a space.  The buffer is doubled
    before it would overflow, which leaves its contents as they are. *)
Fixpoint drainTemp (fuel : nat) (st : ExpState) (expandedFormula : cstring)
  : Outcome (ExpState * cstring) :=
  if isEmptyUnion (stack st) then Normal (st, expandedFormula)
  else
    match fuel with
    | O => Starved st
    | S fuel' =>
        match popElement st with
        | (Some e, st1) =>
            drainTemp fuel' st1 (expandedFormula ++ chemSymbol e ++ [" "%char])
        | (None, st1) => drainTemp fuel' st1 expandedFormula
        end
    end.

(** Lines 164-167: drop one space at the end. *)
Definition trimSpace (expandedFormula : cstring) : cstring :=
  if (0 <? length expandedFormula)%nat && Ascii.eqb (last expandedFormula NUL) " "
  then removelast expandedFormula
  else expandedFormula.

(** The body of [processFormula]: the string it builds and the locals at
    its end. *)
Definition processFormulaRun (formula : cstring) : Outcome (cstring * ExpState) :=
  let st0 := {| stack := initUnionStack; popped := None; emptyPops := 0 |} in
  st1 <- scan (length formula) formula st0;;
  '(st2, tempStack) <- drainMain (length (top (stack st1))) st1 initUnionStack;;
  let st3 := {| stack := tempStack; popped := popped st2; emptyPops := emptyPops st2 |} in
  '(st4, expandedFormula) <- drainTemp (length (top tempStack)) st3 [];;
  Normal (trimSpace expandedFormula, st4).

(** What [processFormula] returns. *)
Inductive Result :=
| Returned (expandedFormula : cstring)
| Faulted (f : Fault)
| Unfinished.

Definition processFormula (formula : cstring) : Result :=
  match processFormulaRun formula with
  | Normal (expandedFormula, _) => Returned expandedFormula
  | Undefined f _ => Faulted f
  | Starved _ => Unfinished
  end.

(** How many [popUnion] calls of the run were made on an empty stack. *)
Definition processFormulaEmptyPops (formula : cstring) : nat :=
  match processFormulaRun formula with
  | Normal (_, st) => emptyPops st
  | Undefined _ st => emptyPops st
  | Starved st => emptyPops st
  end.

(** ** formulaExpander.c: [checkParentheses] *)

(** Lines 288-304: the loop [while ( *p != 0 && valid)], with the flag
    [valid] and the stack at its exit.  [poppedData] and [poppedType] are
    fresh locals of the branch. *)
Fixpoint checkScan (p : cstring) (stack : UnionStack) (valid : bool) : bool * UnionStack :=
  match p with
  | [] => (valid, stack)
  | c :: rest =>
      if valid then
        if Ascii.eqb c "(" then
          checkScan rest (snd (pushCharUnion stack c)) valid
        else if Ascii.eqb c ")" then
          if negb (isEmptyUnion stack) then
            let r := popUnion stack None in
            match popOut r with
            | Some (CharNode d) =>
                checkScan rest (popStack r) (if negb (Ascii.eqb d "(") then false else valid)
            | _ => checkScan rest (popStack r) false
            end
          else checkScan rest stack false
        else checkScan rest stack valid
      else (valid, stack)
  end.

(** Lines 281-320.  The loop that empties the stack before [free] has no
    part in the value returned. *)
Definition checkParentheses (formula : cstring) : bool :=
  let (valid, stack) := checkScan formula initUnionStack true in
  if valid && negb (isEmptyUnion stack) then false else valid.

(** ** formulaExpander.c: [countProtons] *)

(** Lines 231-259: the total of one line read from the file of expanded
    formulas.  Every iteration moves the cursor, so [fuel] as large as the
    length of [p] is enough; [None] says it was not. *)
Fixpoint countScan (fuel : nat) (periodicTable : list Element) (p : cstring)
  (totalAtomicNumber : Z) : option Z :=
  match p with
  | [] => Some totalAtomicNumber
  | c :: _ =>
      match fuel with
      | O => None
      | S fuel' =>
          if isalpha c then
            let (element, skip) := readElementCount p in
            let found := getAtomicNumber periodicTable MAX_ELEMENTS (chemSymbol element) in
            countScan fuel' periodicTable (advance 1 (advance skip p))
              (totalAtomicNumber + found)
          else countScan fuel' periodicTable (advance 1 p) totalAtomicNumber
      end
  end.

(** The number [countProtons] prints for the line [formula]. *)
Definition countProtons (periodicTable : list Element) (formula : cstring) : option Z :=
  countScan (length formula) periodicTable formula 0.

(** ** The validator as the specification words it *)

(** A stack of characters: push on an opening parenthesis; on a closing one
    fail at once when the stack is empty or the entry popped is no opening
    parenthesis; at the end fail when entries are left. *)
Fixpoint isBalancedFrom (chars : list ascii) (p : cstring) : bool :=
  match p with
  | [] => match chars with [] => true | _ :: _ => false end
  | c :: rest =>
      if Ascii.eqb c "(" then isBalancedFrom (c :: chars) rest
      else if Ascii.eqb c ")" then
        match chars with
        | [] => false
        | d :: chars' => if Ascii.eqb d "(" then isBalancedFrom chars' rest else false
        end
      else isBalancedFrom chars rest
  end.

Definition isBalanced (formula : cstring) : bool := isBalancedFrom [] formula.

(** The parenthesis characters of a formula, in order. *)
Definition parentheses (formula : cstring) : cstring :=
  filter (fun c => Ascii.eqb c "(" || Ascii.eqb c ")") formula.

(** Sequences of stack operations, run from an initialized stack. *)
Inductive StackOp :=
| PushChar (c : ascii)
| PushElement (element : Element)
| Pop.

Definition applyOp (stack : UnionStack) (op : StackOp) : UnionStack :=
  match op with
  | PushChar c => snd (pushCharUnion stack c)
  | PushElement element => snd (pushElementUnion stack element)
  | Pop => popStack (popUnion stack None)
  end.

Definition runOps (ops : list StackOp) : UnionStack :=
  fold_left applyOp ops initUnionStack.

(** ** Well-formed input and output of the expander *)

(** The characters a multiplier may stand behind. *)
Definition mayPrecedeDigit (c : ascii) : bool :=
  isalpha c || isdigit c || Ascii.eqb c ")".

(** Every digit that has a character before it stands behind a letter, a
    digit or a closing parenthesis. *)
Fixpoint attached (p : cstring) : bool :=
  match p with
  | [] => true
  | c :: rest => (negb (isdigit (peek rest 0)) || mayPrecedeDigit c) && attached rest
  end.

(** Every run of digits of the formula directly follows a letter or a
    closing parenthesis: the formula does not begin with a digit, and no
    digit follows an opening parenthesis or any other character. *)
Definition multipliersAttached (formula : cstring) : bool :=
  negb (isdigit (peek formula 0)) && attached formula.

(** An element symbol as the tokenizer shapes it: one to three letters. *)
Definition isSymbol (symbol : cstring) : bool :=
  (1 <=? length symbol)%nat && (length symbol <=? 3)%nat && forallb isalpha symbol.

(** The words of a list with one space between neighbours. *)
Fixpoint joinSpaces (words : list cstring) : cstring :=
  match words with
  | [] => []
  | [w] => w
  | w :: more => w ++ " "%char :: joinSpaces more
  end.

(** A stack that holds the elements [es], the first on top, and nothing
    else. *)
Definition elemStack (es : list Element) : UnionStack :=
  {| top := map ElementNode es; size := Z.of_nat (length es) |}.

(** [strcmp(e.chemSymbol, "(") == 0]: the element is a group marker. *)
Definition isMarker (e : Element) : bool := strcmp0 (chemSymbol e) "("%string.

Definition markers (es : list Element) : nat := length (filter isMarker es).

(** What [processFormula] puts on its stack: markers and symbols. *)
Definition wellTagged (e : Element) : bool := isMarker e || isSymbol (chemSymbol e).

(** [g] replays of the group [group] on top of [es]. *)
Definition replay (g : nat) (group es : list Element) : list Element :=
  Nat.iter g (fun l => group ++ l) es.

(** The state of the scanning loop at the cursor [p] of a formula with
    balanced parentheses and attached multipliers: the stack holds the
    elements [es], one marker for each group that is open, and a digit at
    the cursor finds a symbol on top. *)
Definition Ready (p : cstring) (st : ExpState) (es : list Element) : Prop :=
  stack st = elemStack es /\
  forallb wellTagged es = true /\
  isBalancedFrom (repeat "("%char (markers es)) p = true /\
  attached p = true /\
  (isdigit (peek p 0) = true -> exists e es', es = e :: es' /\ isMarker e = false).

(** What the scanning loop reaches from a state with [n] failed pops: no
    further failed pop, and at its normal end a stack of symbols. *)
Definition ScanPost (n : nat) (o : Outcome ExpState) : Prop :=
  match o with
  | Normal st' =>
      exists es', stack st' = elemStack es' /\
                  forallb (fun e => isSymbol (chemSymbol e)) es' = true /\
                  emptyPops st' = n
  | Undefined _ st' => emptyPops st' = n
  | Starved _ => False
  end.

(** What the second draining loop appends for a stack of elements. *)
Definition spaced (es : list Element) : cstring :=
  concat (map (fun e => chemSymbol e ++ [" "%char]) es).

(** [isspace] of the C locale: space, tab, newline, vertical tab, form feed
    and carriage return. *)
Definition isspace (c : ascii) : bool :=
  (code c =? 32) || ((9 <=? code c) && (code c <=? 13)).

(** An expansion as the specification describes the output: symbols with
    single spaces between them, no white space at the end, no group marker
    and no digit. *)
Definition wellFormedExpansion (out : cstring) : Prop :=
  (exists symbols, forallb isSymbol symbols = true /\ out = joinSpaces symbols) /\
  isspace (last out NUL) = false /\
  Forall (fun c => c <> "("%char /\ isdigit c = false) out.

(** String literals stand for C strings. *)
Arguments mkElement chemSymbol%_string atomicNumber%_Z.
Arguments processFormula formula%_string.
Arguments processFormulaEmptyPops formula%_string.
Arguments Returned expandedFormula%_string.
Arguments checkParentheses formula%_string.
Arguments isBalanced formula%_string.
Arguments countProtons periodicTable%_list formula%_string.

(** ** Vocabulary of the proofs *)

(** The counter of the stack is the number of its nodes. *)
Definition sizeCounts (stack : UnionStack) : Prop :=
  size stack = Z.of_nat (length (top stack)).

(** A stack that holds the characters [chars] and nothing else. *)
Definition charStack (chars : list ascii) : UnionStack :=
  {| top := map CharNode chars; size := Z.of_nat (length chars) |}.

(** The value [checkParentheses] computes from the state of its loop. *)
Definition verdict (r : bool * UnionStack) : bool :=
  let (valid, stack) := r in
  if valid && negb (isEmptyUnion stack) then false else valid.

(** The table of the proton-counting scenario. *)
Definition scenarioTable : list Element :=
  [mkElement "H" 1; mkElement "O" 8; mkElement "Mg" 12].

(** ** More of unionStack.c and periodicTable.c *)

(** [topUnionType(stack)]: the tag of the top node; [None] stands for the
    -1 the function returns (after a diagnostic) when there is no node. *)
Definition topUnionType (stack : UnionStack) : option StackDataType :=
  match top stack with
  | [] => None
  | node :: _ => Some (dataType node)
  end.

(** Push a node with the push function of its tag. *)
Definition pushNode (stack : UnionStack) (node : StackNode) : UnionStack :=
  match node with
  | CharNode c => snd (pushCharUnion stack c)
  | ElementNode e => snd (pushElementUnion stack e)
  end.

(** [count] calls of [popUnion] in a row: the nodes delivered to the output
    cells, in the order of the calls, and the stack afterwards.  A call that
    fails delivers nothing. *)
Fixpoint popMany (count : nat) (stack : UnionStack) : list StackNode * UnionStack :=
  match count with
  | O => ([], stack)
  | S count' =>
      let r := popUnion stack None in
      let (nodes, stack') := popMany count' (popStack r) in
      (match popOut r with Some node => node :: nodes | None => nodes end, stack')
  end.

(** [elements[j] = v] on the array held as a list; no write past its end. *)
Fixpoint setNth (j : nat) (v : Element) (elements : list Element) : list Element :=
  match j, elements with
  | O, _ :: rest => v :: rest
  | S j', e :: rest => e :: setNth j' v rest
  | _, [] => []
  end.

(** Lines 55-60 of periodicTable.c: the body of the inner loop at index [j]. *)
Definition swapIfGreater (j : nat) (elements : list Element) : list Element :=
  match nth_error elements j, nth_error elements (S j) with
  | Some a, Some b =>
      if atomicNumber a >? atomicNumber b
      then setNth (S j) a (setNth j b elements)
      else elements
  | _, _ => elements
  end.

(** Line 54: [for (j = ...; j < ...; j++)] with [count] iterations to go. *)
Fixpoint bubbleFrom (j count : nat) (elements : list Element) : list Element :=
  match count with
  | O => elements
  | S count' => bubbleFrom (S j) count' (swapIfGreater j elements)
  end.

(** Line 53: [for (i = ...; i < numElements - 1; i++)] with [count]
    iterations to go; the inner loop runs [numElements - i - 1] times. *)
Fixpoint passesFrom (i : Z) (count : nat) (numElements : Z) (elements : list Element)
  : list Element :=
  match count with
  | O => elements
  | S count' =>
      passesFrom (i + 1) count' numElements
        (bubbleFrom 0 (Z.to_nat (numElements - i - 1)) elements)
  end.

(** [sortPeriodicTable(elements, numElements)]: the array afterwards. *)
Definition sortPeriodicTable (elements : list Element) (numElements : Z) : list Element :=
  passesFrom 0 (Z.to_nat (numElements - 1)) numElements elements.

(** One pass of the inner loop told on the list: the greater of two
    neighbours moves on. *)
Fixpoint bubble (count : nat) (l : list Element) : list Element :=
  match count, l with
  | S count', a :: b :: rest =>
      if atomicNumber a >? atomicNumber b
      then b :: bubble count' (a :: rest)
      else a :: bubble count' (b :: rest)
  | _, _ => l
  end.

(** Ascending atomic numbers. *)
Definition byAtomicNumber (a b : Element) : Prop := atomicNumber a <= atomicNumber b.

(** The value of a digit character and of a run of digits read as a
    decimal numeral. *)
Definition digitValue (c : ascii) : Z := code c - code "0".

Fixpoint decimalValue (digits : cstring) : Z :=
  match digits with
  | [] => 0
  | c :: more => digitValue c * 10 ^ Z.of_nat (length more) + decimalValue more
  end.

(** ** Formulas as trees *)

(** A formula read as a tree: a sequence of symbols and parenthesized
    groups, each with an optional multiplier written in digits. *)
Inductive Formula :=
| FEnd
| FSymbol (symbol : cstring) (multiplier : option cstring) (more : Formula)
| FGroup (body : Formula) (multiplier : option cstring) (more : Formula).

Definition printMultiplier (multiplier : option cstring) : cstring :=
  match multiplier with
  | Some digits => digits
  | None => []
  end.

(** The text of a formula. *)
Fixpoint printFormula (f : Formula) : cstring :=
  match f with
  | FEnd => []
  | FSymbol symbol multiplier more =>
      symbol ++ printMultiplier multiplier ++ printFormula more
  | FGroup body multiplier more =>
      "("%char :: printFormula body ++ ")"%char :: printMultiplier multiplier
        ++ printFormula more
  end.

(** A missing multiplier counts as 1. *)
Definition multiplierValue (multiplier : option cstring) : nat :=
  match multiplier with
  | Some digits => Z.to_nat (decimalValue digits)
  | None => 1%nat
  end.

(** The atoms of a formula from left to right, each symbol as often as
    its multiplier says and each group repeated as a whole. *)
Fixpoint expansion (f : Formula) : list cstring :=
  match f with
  | FEnd => []
  | FSymbol symbol multiplier more =>
      repeat symbol (multiplierValue multiplier) ++ expansion more
  | FGroup body multiplier more =>
      concat (repeat (expansion body) (multiplierValue multiplier)) ++ expansion more
  end.

(** An element symbol: an uppercase letter and up to two lowercase ones. *)
Definition properSymbol (symbol : cstring) : bool :=
  match symbol with
  | [a] => isupper a
  | [a; b] => isupper a && islower b
  | [a; b; c] => isupper a && islower b && islower c
  | _ => false
  end.

(** A multiplier that is written is a run of digits that fits an [int]. *)
Definition properMultiplier (multiplier : option cstring) : bool :=
  match multiplier with
  | Some digits =>
      negb (length digits =? 0)%nat && forallb isdigit digits
      && (decimalValue digits <=? INT_MAX)
  | None => true
  end.

(** A formula inside the limits of the expander: proper symbols and
    multipliers, and no group of more than [MAX_FORMULA_LENGTH] atoms. *)
Fixpoint properFormula (f : Formula) : bool :=
  match f with
  | FEnd => true
  | FSymbol symbol multiplier more =>
      properSymbol symbol && properMultiplier multiplier && properFormula more
  | FGroup body multiplier more =>
      properFormula body && (length (expansion body) <=? MAX_FORMULA_LENGTH)%nat
      && properMultiplier multiplier && properFormula more
  end.

(** The stack entries the tokenizer of [processFormula] makes of symbols. *)
Definition tokens (symbols : list cstring) : list Element :=
  map (fun symbol => {| chemSymbol := symbol; atomicNumber := 1 |}) symbols.



(** ** Files, and the functions of formulaExpander.c that read them

    A file is the list of its characters, none of them NUL; a file system
    gives the contents of the files that exist by name, and two names are
    one file exactly when they are equal.  Opening a file for writing
    succeeds; opening one for reading succeeds when it exists. *)

Definition FileSystem := cstring -> option cstring.

Definition newline : ascii := "010"%char.

(** The characters one [fgets] call takes from the unread part [stream] of
    a file when [room] characters fit the buffer, and what stays unread. *)
Fixpoint readLine (room : nat) (stream : cstring) : cstring * cstring :=
  match room, stream with
  | S room', c :: rest =>
      if Ascii.eqb c newline then ([c], rest)
      else let (line, rest') := readLine room' rest in (c :: line, rest')
  | _, _ => ([], stream)
  end.

(** [fgets(buffer, size, fp)]: [None] is the NULL returned at the end of
    the file. *)
Definition fgets (size : nat) (stream : cstring) : option (cstring * cstring) :=
  match stream with
  | [] => None
  | _ :: _ => Some (readLine (size - 1) stream)
  end.

(** The buffers that the calls of a loop [while (fgets(...) != NULL)]
    deliver one after the other. *)
Fixpoint fgetsAll (fuel size : nat) (stream : cstring) : list cstring :=
  match fuel with
  | O => []
  | S fuel' =>
      match fgets size stream with
      | None => []
      | Some (line, rest) => line :: fgetsAll fuel' size rest
      end
  end.

(** The loops of this file read into [char formula[MAX_FORMULA_LENGTH]];
    every call takes a character, so the length of the file bounds them. *)
Definition readLines (content : cstring) : list cstring :=
  fgetsAll (length content) MAX_FORMULA_LENGTH content.

(** [printf("%d", n)]. *)
Definition printInt (n : Z) : cstring :=
  list_ascii_of_string (DecimalString.NilZero.string_of_int (Z.to_int n)).

(** Lines 337-339: drop a newline at the end of the buffer. *)
Definition stripNewline (formula : cstring) : cstring :=
  if Ascii.eqb (last formula NUL) newline then removelast formula else formula.

(** Line 193, [formula[strcspn(formula, "\n")] = 0]: cut the buffer at its
    first newline. *)
Fixpoint cutAtNewline (formula : cstring) : cstring :=
  match formula with
  | [] => []
  | c :: rest => if Ascii.eqb c newline then [] else c :: cutAtNewline rest
  end.

Definition notBalancedMessage (lineIndex : Z) : cstring :=
  ("Parentheses NOT balanced in line: "%string ++ printInt lineIndex ++ [newline])%list.

(** Lines 335-347: the loop of [validateParentheses] over the buffers
    still to come; the answer and what is printed. *)
Fixpoint validateLines (lineIndex : Z) (lines : list cstring) (overallValid : bool)
  : bool * list cstring :=
  match lines with
  | [] => (overallValid, [])
  | formula :: more =>
      let lineIndex := lineIndex + 1 in
      if negb (checkParentheses (stripNewline formula)) then
        let (answer, printed) := validateLines lineIndex more false in
        (answer, notBalancedMessage lineIndex :: printed)
      else validateLines lineIndex more overallValid
  end.

(** [validateParentheses(inputFile)]: the [bool] returned and the messages
    printed.  When the file cannot be opened the function returns
    [EXIT_FAILURE], which is [true] as a [bool]. *)
Definition validateParentheses (fs : FileSystem) (inputFile : cstring) : bool * list cstring :=
  match fs inputFile with
  | None => (true, [])
  | Some content => validateLines 0 (readLines content) true
  end.

(** Lines 192-201: the loop of [formulaProcessor] over the buffers still to
    come; the text written to the output file.  [processFormula] does not
    return NULL here, so the branch that reports an error is never taken. *)
Fixpoint expandLines (lines : list cstring) : Result :=
  match lines with
  | [] => Returned []
  | formula :: more =>
      match processFormula (cutAtNewline formula) with
      | Returned expandedFormula =>
          match expandLines more with
          | Returned text => Returned (expandedFormula ++ newline :: text)%list
          | other => other
          end
      | other => other
      end
  end.

(** What a function that writes files leaves behind: a file system, or a
    fault of a run of [processFormula]. *)
Inductive FileResult :=
| Files (fs : FileSystem)
| Crashed (f : Fault)
| Cut.

(** [fopen(name, "w")] and the text written until [fclose]. *)
Definition writeFile (fs : FileSystem) (name text : cstring) : FileSystem :=
  fun n => if strcmp0 n name then Some text else fs n.

(** [formulaProcessor(inputFile, outputFile)].  The output file is opened,
    and so emptied, before the first read. *)
Definition formulaProcessor (fs : FileSystem) (inputFile outputFile : cstring) : FileResult :=
  match fs inputFile with
  | None => Files fs
  | Some _ =>
      let opened := writeFile fs outputFile [] in
      match opened inputFile with
      | None => Files opened
      | Some content =>
          match expandLines (readLines content) with
          | Returned text => Files (writeFile opened outputFile text)
          | Faulted f => Crashed f
          | Unfinished => Cut
          end
      end
  end.

(** Lines 229-261: the total printed for one buffer. *)
Definition lineTotal (periodicTable : list Element) (formula : cstring) : Z :=
  match countProtons periodicTable formula with
  | Some totalAtomicNumber => totalAtomicNumber
  | None => 0
  end.

(** Lines 228-262: the loop over the buffers read from the file of
    expanded formulas; the text written to the output file. *)
Definition countLines (periodicTable : list Element) (lines : list cstring) : cstring :=
  concat (map (fun formula => printInt (lineTotal periodicTable formula) ++ [newline]) lines).

Definition tempFile : cstring := list_ascii_of_string "expanded.txt".

(** [countProtons(inputFile, outputFile, periodicTable)] as a whole: the
    temporary file is opened, [formulaProcessor] fills it, the output file
    is opened, and the temporary file is read from its start. *)
Definition countProtonsFile (fs : FileSystem) (inputFile outputFile : cstring)
  (periodicTable : list Element) : FileResult :=
  match formulaProcessor (writeFile fs tempFile []) inputFile tempFile with
  | Files expanded =>
      let opened := writeFile expanded outputFile [] in
      match opened tempFile with
      | None => Files opened
      | Some content =>
          Files (writeFile opened outputFile (countLines periodicTable (readLines content)))
      end
  | other => other
  end.

(** A text file: lines without a newline inside, each closed by one. *)
Definition textFile (lines : list cstring) : cstring :=
  concat (map (fun line => line ++ [newline]) lines).

(** A line that fits the buffer together with its newline. *)
Definition shortLine (line : cstring) : bool :=
  forallb (fun c => negb (Ascii.eqb c newline)) line
  && (length line <=? MAX_FORMULA_LENGTH - 2)%nat.

(** The numbers, counted from 1, of the lines that the validator rejects. *)
Definition rejectedLines (lines : list cstring) : list Z :=
  filter (fun i => negb (checkParentheses (nth (Z.to_nat i - 1) lines [])))
         (map Z.of_nat (seq 1 (length lines))).

(** The last line of a file when no newline closes it: no newline inside,
    and short enough for one buffer. *)
Definition openLine (line : cstring) : bool :=
  forallb (fun c => negb (Ascii.eqb c newline)) line
  && (length line <=? MAX_FORMULA_LENGTH - 1)%nat.

(** The formulas of a file of closed lines and a last line [last] that is
    not closed, if there is one. *)
Definition fileFormulas (lines : list cstring) (last : cstring) : list cstring :=
  lines ++ match last with [] => [] | _ :: _ => [last] end.

(** The rejected ones among the formulas behind the first [k]. *)
Definition rejectedFrom (k : nat) (formulas : list cstring) : list Z :=
  filter (fun i => negb (checkParentheses (nth (Z.to_nat i - 1 - k) formulas [])))
         (map Z.of_nat (seq (S k) (length formulas))).

(** A text without the NUL character, as the files are. *)
Definition noNul (text : cstring) : bool :=
  forallb (fun c => negb (Ascii.eqb c NUL)) text.

(** A file system with the one file [name]. *)
Definition oneFile (name content : cstring) : FileSystem :=
  fun n => if strcmp0 n name then Some content else None.


(** ** [loadPeriodicTable] ([periodicTable.c], lines 19-45)

    [fscanf] with the format ["%3s %d"] in the C locale.  Each of the three
    directives first skips white space.  [%3s] then takes up to three
    characters that are not white space, and [%d] an optional sign and a
    run of digits, read as a decimal numeral. *)

Fixpoint skipSpace (stream : cstring) : cstring :=
  match stream with
  | c :: rest => if isspace c then skipSpace rest else stream
  | [] => []
  end.

(** [%3s] behind the white space: the characters taken, and the rest. *)
Fixpoint scanWord (width : nat) (stream : cstring) : cstring * cstring :=
  match width, stream with
  | S width', c :: rest =>
      if isspace c then ([], stream)
      else let (word, rest') := scanWord width' rest in (c :: word, rest')
  | _, _ => ([], stream)
  end.

(** The sign of [%d]. *)
Definition scanSign (stream : cstring) : bool * cstring :=
  match stream with
  | c :: rest =>
      if Ascii.eqb c "-" then (true, rest)
      else if Ascii.eqb c "+" then (false, rest)
      else (false, stream)
  | [] => (false, [])
  end.

(** The digits of [%d]. *)
Fixpoint scanDigits (stream : cstring) : cstring * cstring :=
  match stream with
  | c :: rest =>
      if isdigit c then let (digits, rest') := scanDigits rest in (c :: digits, rest')
      else ([], stream)
  | [] => ([], [])
  end.

Definition INT_MIN : Z := - INT_MAX - 1.

(** What one call [fscanf(file, "%3s %d", symbol, &atomicNumber)] does. *)
Inductive Scanned :=
| Both (symbol : cstring) (atomicNumber : Z) (rest : cstring)
                 (* 2 is returned: both conversions are stored *)
| Fewer          (* EOF or 1 is returned: the file ends, or no number follows *)
| OutOfRange.    (* the numeral is the value of no [int]: undefined *)

Definition fscanf (stream : cstring) : Scanned :=
  match scanWord 3 (skipSpace stream) with
  | ([], _) => Fewer
  | (symbol, rest) =>
      let (negative, rest) := scanSign (skipSpace (skipSpace rest)) in
      let (digits, rest) := scanDigits rest in
      match digits with
      | [] => Fewer
      | _ :: _ =>
          let atomicNumber := if negative then - decimalValue digits else decimalValue digits in
          if (INT_MIN <=? atomicNumber) && (atomicNumber <=? INT_MAX)
          then Both symbol atomicNumber rest
          else OutOfRange
      end
  end.

(** What a call of [loadPeriodicTable] comes to: the [int] returned and the
    array afterwards, or undefined behaviour (a number out of range, or a
    write past the end of the array). *)
Inductive Loaded :=
| LoadReturned (result : Z) (elements : list Element)
| LoadUndefined
| LoadUnfinished.

(** Lines 29-41: the loop, on the unread part of the file. *)
Fixpoint loadLoop (fuel : nat) (stream : cstring) (index : Z) (elements : list Element)
  : Loaded :=
  match fuel with
  | O => LoadUnfinished
  | S fuel' =>
      if index <? Z.of_nat MAX_ELEMENTS then
        match fscanf stream with
        | Both symbol atomicNumber rest =>
            if (3 <? length symbol)%nat then loadLoop fuel' rest index elements
            else
              match nth_error elements (Z.to_nat index) with
              | Some _ =>
                  loadLoop fuel' rest (index + 1)
                    (setNth (Z.to_nat index)
                            {| chemSymbol := firstn 3 symbol; atomicNumber := atomicNumber |}
                            elements)
              | None => LoadUndefined
              end
        | Fewer => LoadReturned index elements
        | OutOfRange => LoadUndefined
        end
      else LoadReturned index elements
  end.

(** [loadPeriodicTable(filename, elements)].  Every turn of the loop but
    the last takes a character of the file. *)
Definition loadPeriodicTable (fs : FileSystem) (filename : cstring) (elements : list Element)
  : Loaded :=
  match fs filename with
  | None => LoadReturned EXIT_FAILURE elements
  | Some content => loadLoop (S (length content)) content 0 elements
  end.

(** An entry of a table file as it is written: the symbol, white space, the
    atomic number in digits, white space. *)
Record TableEntry := mkEntry {
  entrySymbol : cstring;
  entryGap : cstring;
  entryDigits : cstring;
  entryEnd : cstring
}.

Definition printEntry (entry : TableEntry) : cstring :=
  entrySymbol entry ++ entryGap entry ++ entryDigits entry ++ entryEnd entry.

Definition tableFile (entries : list TableEntry) : cstring :=
  concat (map printEntry entries).

(** An entry that the loader takes as one element: a symbol of one to
    three characters that are not white space, the first of them no digit
    (it may follow the number before it directly); white space; a run of
    digits that fits an [int]; white space or nothing. *)
Definition properEntry (entry : TableEntry) : bool :=
  negb (length (entrySymbol entry) =? 0)%nat
  && (length (entrySymbol entry) <=? 3)%nat
  && forallb (fun c => negb (isspace c)) (entrySymbol entry)
  && negb (isdigit (peek (entrySymbol entry) 0))
  && negb (length (entryGap entry) =? 0)%nat
  && forallb isspace (entryGap entry)
  && negb (length (entryDigits entry) =? 0)%nat
  && forallb isdigit (entryDigits entry)
  && (decimalValue (entryDigits entry) <=? INT_MAX)
  && forallb isspace (entryEnd entry).

(** The element an entry stands for. *)
Definition entryElement (entry : TableEntry) : Element :=
  {| chemSymbol := entrySymbol entry; atomicNumber := decimalValue (entryDigits entry) |}.

(** An entry in the usual layout: a space, and a newline at the end. *)
Definition tableLine (symbol digits : string) : TableEntry :=
  {| entrySymbol := symbol; entryGap := [" "%char];
     entryDigits := digits; entryEnd := [newline] |}.

(** ** [main] ([parseFormula.c], lines 33-110)

    [argv] holds the program name and the arguments, so [argc] is its
    length.  The array [periodicTable] of [main] is not initialized: what
    its [MAX_ELEMENTS] cells hold before the load is the parameter
    [periodicTable].  A run gives the exit status, what is printed on the
    standard output, one string for each call of [printf], and the files
    it leaves. *)

Inductive Run :=
| Exited (status : Z) (printed : list cstring) (fs : FileSystem)
| LoadFault                 (* undefined behaviour in [loadPeriodicTable] *)
| ExpandFault (f : Fault)   (* undefined behaviour in [processFormula] *)
| RunUnfinished.

(** A text and the newline that ends it. *)
Definition line (text : cstring) : cstring := text ++ [newline].

Definition usage : list cstring :=
  [line "Usage:"%string;
   line "./parseFormula periodicTable.txt -v <input.txt>"%string;
   line "./parseFormula periodicTable.txt -ext <input.txt> <output.txt>"%string;
   line "./parseFormula periodicTable.txt -pn <input.txt> <output.txt>"%string].

(** Lines 53-66, the mode [-v]. *)
Definition mainValidate (fs : FileSystem) (argv : list cstring) : Run :=
  if negb (Z.of_nat (length argv) =? 4) then
    Exited 1 [line "Usage: ./parseFormula periodicTable.txt -v <input.txt>"%string] fs
  else
    let inputFile := nth 3 argv [] in
    let (valid, messages) := validateParentheses fs inputFile in
    Exited 0
      (line ("Verify balanced parentheses in "%string ++ inputFile)
       :: messages
       ++ (if valid then [line "Parentheses are balanced for all chemical formulas."%string]
           else []))
      fs.

(** Lines 68-83, the mode [-ext]. *)
Definition mainExpand (fs : FileSystem) (argv : list cstring) : Run :=
  if negb (Z.of_nat (length argv) =? 5) then
    Exited 1
      [line "Usage: ./parseFormula periodicTable.txt -ext <input.txt> <output.txt>"%string] fs
  else
    let inputFile := nth 3 argv [] in
    let (valid, messages) := validateParentheses fs inputFile in
    if negb valid then
      Exited 1
        (messages
         ++ [line ("Imbalanced parentheses in file "%string ++ inputFile
                   ++ ". Cannot proceed with formula expansion."%string)])
        fs
    else
      let outputFile := nth 4 argv [] in
      match formulaProcessor fs inputFile outputFile with
      | Files fs' =>
          Exited 0
            (messages
             ++ [line ("Compute extended version of formulas in "%string ++ inputFile);
                 line ("Writing formulas to "%string ++ outputFile)])
            fs'
      | Crashed f => ExpandFault f
      | Cut => RunUnfinished
      end.

(** Lines 84-99, the mode [-pn]. *)
Definition mainProtons (fs : FileSystem) (argv : list cstring) (periodicTable : list Element)
  : Run :=
  if negb (Z.of_nat (length argv) =? 5) then
    Exited 1 [line "./parseFormula periodicTable.txt -pn <input.txt> <output.txt>"%string] fs
  else
    let inputFile := nth 3 argv [] in
    let (valid, messages) := validateParentheses fs inputFile in
    if negb valid then
      Exited 1
        (messages
         ++ [line ("Imbalanced parentheses in file "%string ++ inputFile
                   ++ ". Cannot proceed with calculating protons."%string)])
        fs
    else
      let outputFile := nth 4 argv [] in
      match countProtonsFile fs inputFile outputFile periodicTable with
      | Files fs' =>
          Exited 0
            (messages
             ++ [line ("Compute total proton number of formulas in "%string ++ inputFile);
                 line ("Writing formulas to "%string ++ outputFile)])
            fs'
      | Crashed f => ExpandFault f
      | Cut => RunUnfinished
      end.

(** [main(argc, argv)]. *)
Definition main (fs : FileSystem) (periodicTable : list Element) (argv : list cstring) : Run :=
  let argc := Z.of_nat (length argv) in
  if negb (argc =? 4) && negb (argc =? 5) then Exited 1 usage fs
  else
    match loadPeriodicTable fs (nth 1 argv []) periodicTable with
    | LoadReturned numElements periodicTable =>
        if numElements =? EXIT_FAILURE then
          Exited 1 [line "Failed to load periodic table."%string] fs
        else
          let periodicTable := sortPeriodicTable periodicTable numElements in
          if strcmp0 (nth 2 argv []) "-v"%string then mainValidate fs argv
          else if strcmp0 (nth 2 argv []) "-ext"%string then mainExpand fs argv
          else if strcmp0 (nth 2 argv []) "-pn"%string then
            mainProtons fs argv periodicTable
          else Exited 1 usage fs
    | LoadUndefined => LoadFault
    | LoadUnfinished => RunUnfinished
    end.

(** An array of [MAX_ELEMENTS] cells for the instances of the theorems. *)
Definition someArray : list Element :=
  repeat {| chemSymbol := "?"%string; atomicNumber := 0 |} MAX_ELEMENTS.

(** The table of the scenario as a file. *)
Definition scenarioEntries : list TableEntry :=
  [tableLine "H" "1"; tableLine "O" "8"; tableLine "Mg" "12"].


(** The command lines of the three modes. *)
Definition commandLine (table mode : cstring) (files : list cstring) : list cstring :=
  list_ascii_of_string "./parseFormula" :: table :: mode :: files.


(** * Properties *)

(** ** The stack *)

Lemma sizeCounts_init : sizeCounts initUnionStack.
Proof. reflexivity. Qed.

Lemma sizeCounts_pushChar stack c :
  sizeCounts stack -> sizeCounts (snd (pushCharUnion stack c)).
Proof. unfold sizeCounts; simpl; lia. Qed.

Lemma sizeCounts_pushElement stack e :
  sizeCounts stack -> sizeCounts (snd (pushElementUnion stack e)).
Proof. unfold sizeCounts; simpl; lia. Qed.

(** On a stack whose counter is right, a pop unlinks the top node. *)
Lemma popUnion_cons stack out temp next :
  sizeCounts stack -> top stack = temp :: next ->
  popUnion stack out =
  {| popStatus := EXIT_SUCCESS;
     popStack := {| top := next; size := size stack - 1 |};
     popOut := Some temp |}.
Proof.
  unfold sizeCounts, popUnion. intros Hsize Htop. rewrite Htop in *. simpl in Hsize.
  destruct (Z.eqb_spec (size stack - 1) 0) as [Hz|Hz]; [|reflexivity].
  destruct next; [reflexivity|simpl in Hsize; lia].
Qed.

Lemma popUnion_nil stack out :
  top stack = [] ->
  popUnion stack out = {| popStatus := EXIT_FAILURE; popStack := stack; popOut := out |}.
Proof. unfold popUnion. intros ->. reflexivity. Qed.

Lemma sizeCounts_pop stack out :
  sizeCounts stack -> sizeCounts (popStack (popUnion stack out)).
Proof.
  intros Hsize. destruct (top stack) as [|temp next] eqn:Htop.
  - rewrite popUnion_nil by assumption. assumption.
  - rewrite (popUnion_cons _ _ _ _ Hsize Htop). unfold sizeCounts in *. simpl.
    rewrite Htop in Hsize. simpl in Hsize. lia.
Qed.

Lemma sizeCounts_applyOp stack op : sizeCounts stack -> sizeCounts (applyOp stack op).
Proof.
  destruct op; simpl.
  - apply sizeCounts_pushChar.
  - apply sizeCounts_pushElement.
  - apply sizeCounts_pop.
Qed.

Lemma sizeCounts_fold ops : forall stack,
  sizeCounts stack -> sizeCounts (fold_left applyOp ops stack).
Proof.
  induction ops as [|op ops IH]; intros stack Hsize; simpl; [assumption|].
  apply IH, sizeCounts_applyOp, Hsize.
Qed.

(** C9: after any sequence of pushes and pops from an initialized stack the
    counter [size] is the number of nodes in the list, and [popUnion] on a
    stack without nodes returns [EXIT_FAILURE] and leaves the stack and both
    output cells as they were. *)
Theorem size_counts_live_entries :
  forall (ops : list StackOp) (n : Z) (out : option StackNode),
    size (runOps ops) = Z.of_nat (length (top (runOps ops))) /\
    popUnion {| top := []; size := n |} out =
    {| popStatus := EXIT_FAILURE; popStack := {| top := []; size := n |}; popOut := out |}.
Proof.
  intros ops n out. split.
  - apply (sizeCounts_fold ops initUnionStack sizeCounts_init).
  - reflexivity.
Qed.

(** ** The validator *)

Lemma sizeCounts_charStack chars : sizeCounts (charStack chars).
Proof. unfold sizeCounts, charStack. simpl. now rewrite length_map. Qed.

Lemma pushCharUnion_charStack chars c :
  snd (pushCharUnion (charStack chars) c) = charStack (c :: chars).
Proof. unfold charStack, pushCharUnion. simpl. f_equal. lia. Qed.

Lemma popUnion_charStack chars d out :
  popUnion (charStack (d :: chars)) out =
  {| popStatus := EXIT_SUCCESS; popStack := charStack chars; popOut := Some (CharNode d) |}.
Proof.
  rewrite (popUnion_cons (charStack (d :: chars)) out (CharNode d) (map CharNode chars)
             (sizeCounts_charStack _) eq_refl).
  unfold charStack. cbn [size length]. do 2 f_equal. lia.
Qed.

Lemma checkScan_invalid p stack : checkScan p stack false = (false, stack).
Proof. destruct p; reflexivity. Qed.

Lemma checkScan_isBalancedFrom p : forall chars,
  verdict (checkScan p (charStack chars) true) = isBalancedFrom chars p.
Proof.
  induction p as [|c rest IH]; intros chars.
  - destruct chars; reflexivity.
  - cbn [checkScan isBalancedFrom].
    destruct (Ascii.eqb c "(").
    + rewrite pushCharUnion_charStack. apply IH.
    + destruct (Ascii.eqb c ")"); [|apply IH].
      destruct chars as [|d chars'].
      * simpl. rewrite checkScan_invalid. reflexivity.
      * cbn [isEmptyUnion charStack top map negb].
        rewrite popUnion_charStack. cbn [popOut popStack].
        destruct (Ascii.eqb d "("); cbn [negb].
        -- apply IH.
        -- rewrite checkScan_invalid. reflexivity.
Qed.

Lemma checkParentheses_isBalanced formula :
  checkParentheses formula = isBalanced formula.
Proof. apply (checkScan_isBalancedFrom formula []). Qed.

(** C2: [checkParentheses] is the scan with a stack of characters that the
    specification describes, and it rejects "H2(O" and ")(" and accepts
    "Ca(OH)2". *)
Theorem checkParentheses_scans_with_char_stack :
  (forall formula : cstring, checkParentheses formula = isBalanced formula) /\
  checkParentheses "H2(O" = false /\
  checkParentheses "Ca(OH)2" = true /\
  checkParentheses ")(" = false.
Proof.
  split; [exact checkParentheses_isBalanced|].
  repeat split; reflexivity.
Qed.

Lemma isBalancedFrom_parentheses p : forall chars,
  isBalancedFrom chars (parentheses p) = isBalancedFrom chars p.
Proof.
  induction p as [|c rest IH]; intros chars; [reflexivity|].
  unfold parentheses in *. cbn [filter isBalancedFrom].
  destruct (Ascii.eqb c "(") eqn:Hopen; cbn [orb].
  - cbn [isBalancedFrom]. rewrite Hopen. apply IH.
  - destruct (Ascii.eqb c ")") eqn:Hclose.
    + cbn [isBalancedFrom]. rewrite Hopen, Hclose. destruct chars as [|d chars']; [reflexivity|].
      destruct (Ascii.eqb d "("); [apply IH|reflexivity].
    + apply IH.
Qed.

(** C10: two formulas with the same parenthesis characters in the same
    order get the same verdict from [checkParentheses]. *)
Theorem checkParentheses_depends_on_parentheses_only :
  forall a b : cstring,
    parentheses a = parentheses b -> checkParentheses a = checkParentheses b.
Proof.
  intros a b Hsame. rewrite !checkParentheses_isBalanced. unfold isBalanced.
  rewrite <- (isBalancedFrom_parentheses a), <- (isBalancedFrom_parentheses b).
  now rewrite Hsame.
Qed.

Lemma checkParentheses_depends_on_parentheses_only_witness :
  parentheses "Ca(OH)2"%string = parentheses "x(y)z"%string /\
  checkParentheses "Ca(OH)2" = checkParentheses "x(y)z".
Proof.
  split; [reflexivity|].
  apply (checkParentheses_depends_on_parentheses_only "Ca(OH)2"%string "x(y)z"%string).
  reflexivity.
Defined.

(** ** The tokenizer *)

Lemma peek_advance (p : cstring) : forall i k, peek (advance i p) k = peek p (i + k).
Proof.
  unfold peek, advance. induction p as [|c rest IH]; intros i k.
  - rewrite skipn_nil. destruct (i + k)%nat; destruct k; reflexivity.
  - destruct i; [reflexivity|]. simpl. apply IH.
Qed.

Lemma islower_isalpha c : islower c = true -> isalpha c = true.
Proof. unfold isalpha. intros ->. apply orb_true_r. Qed.

(** The symbol both tokenizers read at a letter: its characters are the
    next one, two or three characters of the string. *)
Lemma readElement_prefix (p : cstring) :
  isalpha (peek p 0) = true ->
  chemSymbol (fst (readElement p)) = firstn (S (snd (readElement p))) p /\
  (snd (readElement p) <= 2)%nat.
Proof.
  unfold readElement, peek. intros Halpha.
  destruct p as [|c0 rest]; [discriminate|]. cbn [nth] in *.
  destruct (isupper c0); cbn [andb]; [|split; [reflexivity|simpl; lia]].
  destruct rest as [|c1 rest]; [split; [reflexivity|simpl; lia]|]. cbn [nth].
  destruct (islower c1); cbn [andb]; [|split; [reflexivity|simpl; lia]].
  destruct rest as [|c2 rest]; [split; [reflexivity|simpl; lia]|]. cbn [nth].
  destruct (islower c2); split; try reflexivity; simpl; lia.
Qed.

(** C8: at every cursor that stands on a letter, the tokenizer written in
    [countProtons] reads the same symbol and moves the cursor as far as the
    one written in [processFormula]; the symbol is the next one to three
    characters of the string. *)
Theorem tokenizers_agree :
  forall (formula : cstring) (i : nat),
    isalpha (peek formula i) = true ->
    let p := advance i formula in
    chemSymbol (fst (readElementCount p)) = chemSymbol (fst (readElement p)) /\
    snd (readElementCount p) = snd (readElement p) /\
    chemSymbol (fst (readElement p)) = firstn (S (snd (readElement p))) p /\
    (1 <= S (snd (readElement p)) <= 3)%nat.
Proof.
  intros formula i Halpha p.
  assert (Hp : isalpha (peek p 0) = true).
  { unfold p. rewrite peek_advance, Nat.add_0_r. exact Halpha. }
  destruct (readElement_prefix p Hp) as [Hsym Hlen].
  repeat split; try assumption; try lia.
  - unfold readElementCount, readElement.
    destruct (isupper (peek p 0) && islower (peek p 1) && islower (peek p 2)); [reflexivity|].
    destruct (isupper (peek p 0) && islower (peek p 1)); reflexivity.
  - unfold readElementCount, readElement.
    destruct (isupper (peek p 0) && islower (peek p 1) && islower (peek p 2)); [reflexivity|].
    destruct (isupper (peek p 0) && islower (peek p 1)); reflexivity.
Qed.

Lemma tokenizers_agree_witness :
  isalpha (peek "Mg(OH)2"%string 0) = true /\
  chemSymbol (fst (readElementCount (advance 0 "Mg(OH)2"%string))) = "Mg"%string /\
  snd (readElementCount (advance 0 "Mg(OH)2"%string)) = 1%nat.
Proof.
  split; [reflexivity|].
  destruct (tokenizers_agree "Mg(OH)2"%string 0 eq_refl) as (Hsym & Hskip & _).
  split; [rewrite Hsym|rewrite Hskip]; reflexivity.
Defined.

(** ** Character classes *)

Lemma isalpha_plain c :
  isalpha c = true -> Ascii.eqb c "(" = false /\ Ascii.eqb c ")" = false /\ isdigit c = false.
Proof.
  intros H. repeat split.
  - destruct (Ascii.eqb_spec c "(") as [->|]; [discriminate H|reflexivity].
  - destruct (Ascii.eqb_spec c ")") as [->|]; [discriminate H|reflexivity].
  - unfold isalpha, isupper, islower, isdigit in *. lia.
Qed.

Lemma isdigit_plain c :
  isdigit c = true -> Ascii.eqb c "(" = false /\ Ascii.eqb c ")" = false.
Proof.
  intros H. split.
  - destruct (Ascii.eqb_spec c "(") as [->|]; [discriminate H|reflexivity].
  - destruct (Ascii.eqb_spec c ")") as [->|]; [discriminate H|reflexivity].
Qed.

Lemma isSymbol_not_marker symbol n :
  isSymbol symbol = true -> isMarker {| chemSymbol := symbol; atomicNumber := n |} = false.
Proof.
  unfold isSymbol, isMarker. intros H.
  apply andb_true_iff in H as [_ Hall].
  destruct symbol as [|c symbol]; [reflexivity|].
  cbn in Hall |- *. apply andb_true_iff in Hall as [Hc _].
  destruct (isalpha_plain c Hc) as [-> _]. reflexivity.
Qed.

Lemma wellTagged_not_marker e :
  wellTagged e = true -> isMarker e = false -> isSymbol (chemSymbol e) = true.
Proof. unfold wellTagged. intros H Hm. rewrite Hm in H. exact H. Qed.

(** ** The stack of [processFormula] *)

Lemma sizeCounts_elemStack es : sizeCounts (elemStack es).
Proof. unfold sizeCounts, elemStack. simpl. now rewrite length_map. Qed.

Lemma push_elemStack st e es :
  stack st = elemStack es ->
  stack (push st e) = elemStack (e :: es) /\ emptyPops (push st e) = emptyPops st.
Proof.
  intros Hst. split; [|reflexivity].
  unfold push. cbn [stack]. rewrite Hst. unfold elemStack, pushElementUnion.
  cbn -[Z.of_nat]. f_equal. lia.
Qed.

Lemma popElement_cons st e es :
  stack st = elemStack (e :: es) ->
  exists st1, popElement st = (Some e, st1) /\
              stack st1 = elemStack es /\ emptyPops st1 = emptyPops st.
Proof.
  intros Hst. unfold popElement, pop. rewrite Hst.
  rewrite (popUnion_cons (elemStack (e :: es)) (popped st) (ElementNode e)
             (map ElementNode es) (sizeCounts_elemStack _) eq_refl).
  cbn [popStatus popStack popOut]. cbn [Z.eqb EXIT_SUCCESS popped].
  eexists. split; [reflexivity|]. cbn [stack emptyPops]. split; [|reflexivity].
  unfold elemStack. cbn [size length]. f_equal. lia.
Qed.

Lemma pushCopies_elemStack multiplier e st es :
  stack st = elemStack es ->
  stack (pushCopies multiplier e st) = elemStack (repeat e (Z.to_nat multiplier) ++ es) /\
  emptyPops (pushCopies multiplier e st) = emptyPops st.
Proof.
  intros Hst. unfold pushCopies.
  induction (Z.to_nat multiplier) as [|n [IHs IHe]]; [now split|].
  rewrite Nat.iter_succ. cbn [repeat app].
  destruct (push_elemStack _ e _ IHs) as [Hs He]. split; [exact Hs|congruence].
Qed.

Lemma fold_push_elemStack group : forall st es,
  stack st = elemStack es ->
  stack (fold_left push (rev group) st) = elemStack (group ++ es) /\
  emptyPops (fold_left push (rev group) st) = emptyPops st.
Proof.
  induction group as [|e group IH]; intros st es Hst; [now split|].
  cbn [rev]. rewrite fold_left_app. cbn [fold_left app].
  destruct (IH st es Hst) as [IHs IHe].
  destruct (push_elemStack _ e _ IHs) as [Hs He]. split; [exact Hs|congruence].
Qed.

Lemma pushGroup_elemStack g group st es :
  stack st = elemStack es ->
  stack (pushGroup g group st) = elemStack (replay (Z.to_nat g) group es) /\
  emptyPops (pushGroup g group st) = emptyPops st.
Proof.
  intros Hst. unfold pushGroup, replay.
  induction (Z.to_nat g) as [|n [IHs IHe]]; [now split|].
  rewrite !Nat.iter_succ.
  destruct (fold_push_elemStack group _ _ IHs) as [Hs He]. split; [exact Hs|congruence].
Qed.

Lemma popGroup_unfold fuel st tempArray :
  popGroup fuel st tempArray =
  match popElement st with
  | (Some e, st1) =>
      if negb (isMarker e) then
        if (length tempArray <? MAX_FORMULA_LENGTH)%nat then
          match fuel with
          | O => Starved st1
          | S fuel' => popGroup fuel' st1 (tempArray ++ [e])
          end
        else Undefined TempArrayOverflow st1
      else Normal (tempArray, st1)
  | (None, st1) => Normal (tempArray, st1)
  end.
Proof. destruct fuel; reflexivity. Qed.

(** Above a marker, the loop of the closing parenthesis pops the tokens of
    the group and the marker, and no pop of it finds the stack empty. *)
Lemma popGroup_to_marker toks : forall fuel st tempArray m below,
  stack st = elemStack (toks ++ m :: below) ->
  forallb (fun e => negb (isMarker e)) toks = true ->
  isMarker m = true ->
  (length toks <= fuel)%nat ->
  match popGroup fuel st tempArray with
  | Normal (tempArray', st') =>
      tempArray' = tempArray ++ toks /\ stack st' = elemStack below /\
      emptyPops st' = emptyPops st
  | Undefined _ st' => emptyPops st' = emptyPops st
  | Starved _ => False
  end.
Proof.
  induction toks as [|e toks IH]; intros fuel st tempArray m below Hst Htoks Hm Hfuel;
    rewrite popGroup_unfold.
  - destruct (popElement_cons st m below Hst) as (st1 & -> & Hs1 & He1).
    rewrite Hm. cbn [negb]. rewrite app_nil_r. auto.
  - cbn [forallb] in Htoks. apply andb_true_iff in Htoks as [He Htoks].
    destruct (popElement_cons st e (toks ++ m :: below) Hst) as (st1 & -> & Hs1 & He1).
    rewrite He. destruct (length tempArray <? MAX_FORMULA_LENGTH)%nat; [|exact He1].
    destruct fuel as [|fuel]; [simpl in Hfuel; lia|].
    specialize (IH fuel st1 (tempArray ++ [e]) m below Hs1 Htoks Hm).
    destruct (popGroup fuel st1 (tempArray ++ [e])) as [[ta st']|f st'|st'].
    + destruct IH as (-> & Hs' & He'); [simpl in Hfuel; lia|].
      rewrite <- app_assoc. repeat split; [assumption|congruence].
    + rewrite IH; [assumption|simpl in Hfuel; lia].
    + apply IH. simpl in Hfuel; lia.
Qed.

Lemma split_at_marker es :
  markers es <> 0%nat ->
  exists toks m below,
    es = toks ++ m :: below /\
    forallb (fun e => negb (isMarker e)) toks = true /\
    isMarker m = true /\
    markers below = pred (markers es).
Proof.
  unfold markers. induction es as [|e es IH]; intros Hpos; [now contradiction Hpos|].
  cbn [filter] in *. destruct (isMarker e) eqn:He.
  - exists [], e, es. repeat split; assumption.
  - destruct (IH Hpos) as (toks & m & below & -> & Htoks & Hm & Hbelow).
    exists (e :: toks), m, below. cbn [forallb]. rewrite He. repeat split; assumption.
Qed.

Lemma markers_app a b : markers (a ++ b) = (markers a + markers b)%nat.
Proof. unfold markers. now rewrite filter_app, length_app. Qed.

Lemma markers_none toks :
  forallb (fun e => negb (isMarker e)) toks = true -> markers toks = 0%nat.
Proof.
  unfold markers. induction toks as [|e toks IH]; [reflexivity|].
  cbn [forallb filter]. intros H. apply andb_true_iff in H as [He H].
  apply negb_true_iff in He. rewrite He. auto.
Qed.

Lemma markers_replay g group es :
  markers group = 0%nat -> markers (replay g group es) = markers es.
Proof.
  intros Hgroup. unfold replay. induction g as [|g IH]; [reflexivity|].
  rewrite Nat.iter_succ, markers_app, Hgroup. exact IH.
Qed.

Lemma wellTagged_replay g group es :
  forallb wellTagged group = true -> forallb wellTagged es = true ->
  forallb wellTagged (replay g group es) = true.
Proof.
  intros Hgroup Hes. unfold replay. induction g as [|g IH]; [assumption|].
  rewrite Nat.iter_succ, forallb_app, Hgroup. exact IH.
Qed.

(** With no marker left, the stack holds symbols only. *)
Lemma wellTagged_symbols es :
  forallb wellTagged es = true -> markers es = 0%nat ->
  forallb (fun e => isSymbol (chemSymbol e)) es = true.
Proof.
  unfold markers. induction es as [|e es IH]; [reflexivity|].
  cbn [forallb filter]. intros H Hm. apply andb_true_iff in H as [He H].
  destruct (isMarker e) eqn:Hmark; [discriminate Hm|].
  rewrite (wellTagged_not_marker e He Hmark). auto.
Qed.

(** ** Moving the cursor *)

Lemma readMultiplier_shape p : forall multiplier g p',
  readMultiplier multiplier p = (Some g, p') ->
  exists ds, p = ds ++ p' /\ forallb isdigit ds = true /\ isdigit (peek p' 0) = false.
Proof.
  induction p as [|c rest IH]; intros multiplier g p' Hread; cbn [readMultiplier] in Hread.
  - inversion Hread. exists []. now repeat split.
  - destruct (isdigit c) eqn:Hc.
    + destruct (multiplier * 10 + (code c - code "0") <=? INT_MAX); [|discriminate Hread].
      destruct (IH _ _ _ Hread) as (ds & -> & Hds & Hp').
      exists (c :: ds). cbn [forallb app]. rewrite Hc, Hds. now repeat split.
    + inversion Hread. exists []. now repeat split.
Qed.

Lemma readGroupMultiplier_shape p g p' :
  readGroupMultiplier p = (Some g, p') ->
  exists ds, p = ds ++ p' /\ forallb isdigit ds = true /\ isdigit (peek p' 0) = false.
Proof.
  unfold readGroupMultiplier. destruct (isdigit (peek p 0)) eqn:Hp.
  - apply readMultiplier_shape.
  - intros Hread. inversion Hread. subst. exists []. now repeat split.
Qed.

Lemma isBalancedFrom_skip pre : forall chars rest,
  (forall c, In c pre -> Ascii.eqb c "(" = false /\ Ascii.eqb c ")" = false) ->
  isBalancedFrom chars (pre ++ rest) = isBalancedFrom chars rest.
Proof.
  induction pre as [|c pre IH]; intros chars rest Hpre; [reflexivity|].
  cbn [app isBalancedFrom].
  destruct (Hpre c (or_introl eq_refl)) as [-> ->].
  apply IH. intros d Hd. apply Hpre. now right.
Qed.

Lemma isBalancedFrom_skip_digits ds chars rest :
  forallb isdigit ds = true ->
  isBalancedFrom chars (ds ++ rest) = isBalancedFrom chars rest.
Proof.
  intros Hds. apply isBalancedFrom_skip. intros c Hc.
  apply isdigit_plain. now apply (proj1 (forallb_forall _ _) Hds).
Qed.

Lemma isBalancedFrom_skip_letters tok chars rest :
  forallb isalpha tok = true ->
  isBalancedFrom chars (tok ++ rest) = isBalancedFrom chars rest.
Proof.
  intros Htok. apply isBalancedFrom_skip. intros c Hc.
  destruct (isalpha_plain c) as (H1 & H2 & _); [|now split].
  now apply (proj1 (forallb_forall _ _) Htok).
Qed.

Lemma attached_suffix pre : forall rest,
  attached (pre ++ rest) = true -> attached rest = true.
Proof.
  induction pre as [|c pre IH]; intros rest H; [exact H|].
  cbn [app attached] in H. apply andb_true_iff in H as [_ H]. now apply IH.
Qed.

(** The step of the tokenizer at a letter: the symbol read is a prefix of
    the string and the cursor moves behind it. *)
Lemma readElement_step c rest :
  isalpha c = true ->
  isSymbol (chemSymbol (fst (readElement (c :: rest)))) = true /\
  c :: rest = chemSymbol (fst (readElement (c :: rest))) ++
              advance 1 (advance (snd (readElement (c :: rest))) (c :: rest)).
Proof.
  intros Hc. unfold readElement, peek, isSymbol, advance. cbn [nth].
  destruct (isupper c); cbn [andb]; [|cbn; rewrite Hc; now split].
  destruct rest as [|c1 rest]; [cbn; rewrite Hc; now split|]. cbn [nth].
  destruct (islower c1) eqn:H1; cbn [andb]; [|cbn; rewrite Hc; now split].
  apply islower_isalpha in H1.
  destruct rest as [|c2 rest]; [cbn; rewrite Hc, H1; now split|]. cbn [nth].
  destruct (islower c2) eqn:H2; [|cbn; rewrite Hc, H1; now split].
  apply islower_isalpha in H2. cbn. rewrite Hc, H1, H2. now split.
Qed.

Lemma markers_repeat e n : isMarker e = false -> markers (repeat e n) = 0%nat.
Proof.
  intros He. unfold markers. induction n as [|n IH]; [reflexivity|].
  cbn [repeat filter]. now rewrite He.
Qed.

Lemma wellTagged_repeat e n :
  wellTagged e = true -> forallb wellTagged (repeat e n) = true.
Proof.
  intros He. induction n as [|n IH]; [reflexivity|].
  cbn [repeat forallb]. now rewrite He.
Qed.

Lemma markers_cons e es :
  markers (e :: es) = ((if isMarker e then 1 else 0) + markers es)%nat.
Proof. unfold markers. cbn [filter]. now destruct (isMarker e). Qed.

Lemma length_after_prefix (pre p p' : cstring) :
  p = pre ++ p' -> pre <> [] -> (length p' < length p)%nat.
Proof.
  intros -> Hpre. rewrite length_app. destruct pre; [now contradiction Hpre|simpl; lia].
Qed.

Lemma Ready_end st es :
  Ready [] st es -> ScanPost (emptyPops st) (Normal st).
Proof.
  intros (Hst & Htag & Hbal & _ & _). exists es. repeat split; [assumption|].
  apply wellTagged_symbols; [assumption|].
  destruct (markers es); [reflexivity|discriminate Hbal].
Qed.

(** The invariant of the scanning loop. *)
Lemma scan_ready fuel : forall p st es,
  (length p <= fuel)%nat -> Ready p st es -> ScanPost (emptyPops st) (scan fuel p st).
Proof.
  induction fuel as [|fuel IH]; intros p st es Hfuel Hready.
  { destruct p; [now apply Ready_end with es|simpl in Hfuel; lia]. }
  destruct p as [|c rest]; [now apply Ready_end with es|].
  destruct Hready as (Hst & Htag & Hbal & Hatt & Hdig).
  cbn [attached] in Hatt. apply andb_true_iff in Hatt as [Hnext Hatt].
  cbn [scan].
  destruct (isalpha c) eqn:Halpha.
  { (* a letter: one symbol is pushed *)
    destruct (readElement_step c rest Halpha) as [Hsym Hsplit].
    destruct (readElement (c :: rest)) as [[symbol n] skip]. cbn [fst snd chemSymbol] in *.
    set (p' := advance 1 (advance skip (c :: rest))) in *.
    set (element := {| chemSymbol := symbol; atomicNumber := n |}).
    assert (Hall : forallb isalpha symbol = true).
    { unfold isSymbol in Hsym. now apply andb_true_iff in Hsym as [_ Hsym]. }
    destruct (push_elemStack st element es Hst) as [Hs He].
    rewrite <- He. apply IH with (es := element :: es).
    - assert (length p' < length (c :: rest))%nat; [|simpl in *; lia].
      apply length_after_prefix with symbol; [exact Hsplit|].
      intros ->. discriminate Hsym.
    - repeat split.
      + exact Hs.
      + cbn [forallb]. unfold wellTagged at 1, element. cbn [chemSymbol].
        rewrite Hsym, orb_true_r. exact Htag.
      + rewrite markers_cons. unfold element. rewrite (isSymbol_not_marker symbol n Hsym).
        rewrite Hsplit in Hbal. now rewrite isBalancedFrom_skip_letters in Hbal.
      + apply attached_suffix with symbol. rewrite <- Hsplit. cbn [attached].
        now rewrite Hnext, Hatt.
      + intros _. exists element, es. split; [reflexivity|].
        apply isSymbol_not_marker, Hsym. }
  destruct (isdigit c) eqn:Hdigit.
  { (* a multiplier behind a symbol *)
    destruct (readMultiplier 0 (c :: rest)) as [[g|] p'] eqn:Hread; [|reflexivity].
    destruct (readMultiplier_shape _ _ _ _ Hread) as (ds & Hsplit & Hds & Hp').
    destruct (Hdig Hdigit) as (e & es' & -> & He).
    destruct (popElement_cons st e es' Hst) as (st1 & -> & Hs1 & He1).
    destruct (pushCopies_elemStack g e st1 es' Hs1) as [Hs2 He2].
    rewrite <- He1, <- He2. apply IH with (es := repeat e (Z.to_nat g) ++ es').
    - assert (length p' < length (c :: rest))%nat; [|simpl in *; lia].
      apply length_after_prefix with ds; [exact Hsplit|].
      intros ->. cbn [app] in Hsplit. subst p'. cbn in Hp'. congruence.
    - cbn [forallb] in Htag. apply andb_true_iff in Htag as [Htage Htag].
      rewrite markers_cons, He in Hbal. cbn [Nat.add] in Hbal.
      repeat split.
      + exact Hs2.
      + rewrite forallb_app, wellTagged_repeat by assumption. exact Htag.
      + rewrite markers_app, markers_repeat by assumption. cbn [Nat.add].
        rewrite Hsplit in Hbal. now rewrite isBalancedFrom_skip_digits in Hbal.
      + apply attached_suffix with ds. rewrite <- Hsplit. cbn [attached].
        now rewrite Hnext, Hatt.
      + intros H. congruence. }
  assert (Hrest : isdigit (peek (advance 1 (c :: rest)) 0) = true ->
                  mayPrecedeDigit c = true).
  { change (advance 1 (c :: rest)) with rest. intros H. rewrite H in Hnext. exact Hnext. }
  destruct (Ascii.eqb c "(") eqn:Hopen.
  { (* an opening parenthesis: a marker is pushed *)
    apply Ascii.eqb_eq in Hopen. subst c.
    destruct (push_elemStack st dummy es Hst) as [Hs He].
    rewrite <- He. apply IH with (es := dummy :: es).
    - simpl in *. lia.
    - repeat split.
      + exact Hs.
      + cbn [forallb]. now rewrite Htag.
      + exact Hbal.
      + exact Hatt.
      + intros H. apply Hrest in H. discriminate H. }
  destruct (Ascii.eqb c ")") eqn:Hclose.
  { (* a closing parenthesis: the group is popped and replayed *)
    cbn [isBalancedFrom] in Hbal. rewrite Hopen, Hclose in Hbal.
    destruct (markers es) as [|d] eqn:Hmarkers; [discriminate Hbal|].
    cbn [repeat] in Hbal. cbn [Ascii.eqb Bool.eqb] in Hbal.
    destruct (split_at_marker es) as (toks & m & below & Hes & Htoks & Hm & Hbelow);
      [lia|].
    rewrite Hmarkers in Hbelow. cbn [pred] in Hbelow.
    assert (Hpop := popGroup_to_marker toks (length (top (stack st))) st [] m below).
    rewrite <- Hes in Hpop. specialize (Hpop Hst Htoks Hm).
    rewrite app_nil_l in Hpop.
    destruct (popGroup (length (top (stack st))) st []) as [[ta st1]|f st1|st1];
      cbn [bind].
    2:{ apply Hpop. rewrite Hst. cbn [elemStack top]. rewrite length_map, Hes, length_app. lia. }
    2:{ apply Hpop. rewrite Hst. cbn [elemStack top]. rewrite length_map, Hes, length_app. lia. }
    destruct Hpop as (-> & Hs1 & He1).
    { rewrite Hst. cbn [elemStack top]. rewrite length_map, Hes, length_app. lia. }
    destruct (readGroupMultiplier (advance 1 (c :: rest))) as [[g|] p'] eqn:Hread;
      [|exact He1].
    destruct (readGroupMultiplier_shape _ _ _ Hread) as (ds & Hsplit & Hds & Hp').
    cbn in Hsplit.
    destruct (pushGroup_elemStack g toks st1 below Hs1) as [Hs2 He2].
    rewrite <- He1, <- He2. apply IH with (es := replay (Z.to_nat g) toks below).
    - assert (length p' <= length rest)%nat; [|simpl in *; lia].
      rewrite Hsplit, length_app. lia.
    - rewrite Hes, forallb_app in Htag. apply andb_true_iff in Htag as [Htagt Htag].
      cbn [forallb] in Htag. apply andb_true_iff in Htag as [_ Htag].
      repeat split.
      + exact Hs2.
      + now apply wellTagged_replay.
      + rewrite markers_replay, Hbelow by now apply markers_none.
        rewrite Hsplit in Hbal. now rewrite isBalancedFrom_skip_digits in Hbal.
      + apply attached_suffix with ds. now rewrite <- Hsplit.
      + intros H. congruence. }
  (* any other character is skipped *)
  apply IH with (es := es).
  - simpl in *. lia.
  - repeat split; try assumption.
    + cbn [isBalancedFrom] in Hbal. now rewrite Hopen, Hclose in Hbal.
    + intros H. apply Hrest in H. unfold mayPrecedeDigit in H.
      rewrite Halpha, Hdigit, Hclose in H. discriminate H.
Qed.

(** ** The two draining loops and the output buffer *)

Lemma pushElementUnion_elemStack es e :
  snd (pushElementUnion (elemStack es) e) = elemStack (e :: es).
Proof. unfold elemStack, pushElementUnion. cbn -[Z.of_nat]. f_equal. lia. Qed.

Lemma drainMain_elemStack es : forall fuel st ts,
  stack st = elemStack es -> (length es <= fuel)%nat ->
  exists st', drainMain fuel st (elemStack ts) = Normal (st', elemStack (rev es ++ ts)) /\
              emptyPops st' = emptyPops st.
Proof.
  induction es as [|e es IH]; intros fuel st ts Hst Hfuel.
  - exists st. split; [|reflexivity]. destruct fuel; cbn [drainMain]; now rewrite Hst.
  - destruct fuel as [|fuel]; [simpl in Hfuel; lia|]. cbn [drainMain].
    replace (isEmptyUnion (stack st)) with false by now rewrite Hst.
    destruct (popElement_cons st e es Hst) as (st1 & -> & Hs1 & He1).
    rewrite pushElementUnion_elemStack.
    destruct (IH fuel st1 (e :: ts) Hs1) as (st' & Hrun & He'); [simpl in Hfuel; lia|].
    exists st'. cbn [rev]. rewrite <- app_assoc. split; [exact Hrun|congruence].
Qed.

Lemma drainTemp_elemStack es : forall fuel st expandedFormula,
  stack st = elemStack es -> (length es <= fuel)%nat ->
  exists st', drainTemp fuel st expandedFormula = Normal (st', expandedFormula ++ spaced es) /\
              emptyPops st' = emptyPops st.
Proof.
  induction es as [|e es IH]; intros fuel st buf Hst Hfuel.
  - exists st. split; [|reflexivity]. unfold spaced. cbn [map concat]. rewrite app_nil_r.
    destruct fuel; cbn [drainTemp]; now rewrite Hst.
  - destruct fuel as [|fuel]; [simpl in Hfuel; lia|]. cbn [drainTemp].
    replace (isEmptyUnion (stack st)) with false by now rewrite Hst.
    destruct (popElement_cons st e es Hst) as (st1 & -> & Hs1 & He1).
    destruct (IH fuel st1 (buf ++ chemSymbol e ++ [" "%char]) Hs1) as (st' & Hrun & He');
      [simpl in Hfuel; lia|].
    exists st'. split; [|congruence]. rewrite Hrun. unfold spaced. cbn [map concat].
    now rewrite <- !app_assoc.
Qed.

Lemma spaced_joinSpaces es :
  es <> [] -> spaced es = joinSpaces (map chemSymbol es) ++ [" "%char].
Proof.
  unfold spaced. induction es as [|e es IH]; intros Hes; [now contradiction Hes|].
  destruct es as [|e' es].
  - cbn. now rewrite app_nil_r.
  - cbn [map concat joinSpaces] in *. rewrite IH by discriminate.
    now rewrite <- !app_assoc.
Qed.

Lemma trimSpace_spaced es : trimSpace (spaced es) = joinSpaces (map chemSymbol es).
Proof.
  destruct es as [|e es]; [reflexivity|].
  rewrite spaced_joinSpaces by discriminate. unfold trimSpace.
  rewrite last_last, removelast_last, length_app, Nat.add_comm. reflexivity.
Qed.

(** ** Shape of an expansion *)

Lemma last_app_cons {A : Type} (a : list A) x b d : last (a ++ x :: b) d = last (x :: b) d.
Proof.
  induction a as [|y a IH]; [reflexivity|].
  cbn [app]. destruct (a ++ x :: b) eqn:Heq; [now destruct a|]. exact IH.
Qed.

Lemma last_In {A : Type} (l : list A) d : l <> [] -> In (last l d) l.
Proof.
  induction l as [|x l IH]; intros Hl; [now contradiction Hl|].
  destruct l as [|y l]; [now left|]. right. apply IH. discriminate.
Qed.

Lemma isSymbol_letters symbol :
  isSymbol symbol = true -> symbol <> [] /\ forallb isalpha symbol = true.
Proof.
  unfold isSymbol. intros H. apply andb_true_iff in H as [H Hall].
  apply andb_true_iff in H as [Hlen _]. split; [|exact Hall].
  intros ->. discriminate Hlen.
Qed.

Lemma joinSpaces_last symbols :
  forallb isSymbol symbols = true -> symbols <> [] ->
  isalpha (last (joinSpaces symbols) NUL) = true.
Proof.
  induction symbols as [|w symbols IH]; intros Hall Hne; [now contradiction Hne|].
  cbn [forallb] in Hall. apply andb_true_iff in Hall as [Hw Hall].
  destruct symbols as [|w' symbols].
  - cbn [joinSpaces]. destruct (isSymbol_letters w Hw) as [Hw1 Hw2].
    apply (proj1 (forallb_forall _ _) Hw2). now apply last_In.
  - change (joinSpaces (w :: w' :: symbols))
      with (w ++ " "%char :: joinSpaces (w' :: symbols)).
    rewrite last_app_cons. specialize (IH Hall ltac:(discriminate)).
    destruct (joinSpaces (w' :: symbols)) as [|c l]; [discriminate IH|exact IH].
Qed.

Lemma joinSpaces_chars symbols :
  forallb isSymbol symbols = true ->
  Forall (fun c => isalpha c = true \/ c = " "%char) (joinSpaces symbols).
Proof.
  induction symbols as [|w symbols IH]; intros Hall; [constructor|].
  cbn [forallb] in Hall. apply andb_true_iff in Hall as [Hw Hall].
  assert (Hletters : Forall (fun c => isalpha c = true \/ c = " "%char) w).
  { apply Forall_forall. intros c Hc. left.
    apply (proj1 (forallb_forall _ _) (proj2 (isSymbol_letters w Hw))), Hc. }
  destruct symbols as [|w' symbols]; [exact Hletters|].
  change (joinSpaces (w :: w' :: symbols))
    with (w ++ " "%char :: joinSpaces (w' :: symbols)).
  apply Forall_app. split; [exact Hletters|]. constructor; [now right|now apply IH].
Qed.

Lemma joinSpaces_wellFormed symbols :
  forallb isSymbol symbols = true -> wellFormedExpansion (joinSpaces symbols).
Proof.
  intros Hall. repeat split.
  - now exists symbols.
  - destruct symbols as [|w symbols]; [reflexivity|].
    assert (H := joinSpaces_last (w :: symbols) Hall ltac:(discriminate)).
    revert H. generalize (last (joinSpaces (w :: symbols)) NUL). intros c Hc.
    unfold isalpha, isupper, islower, isspace in *. lia.
  - eapply Forall_impl; [|apply joinSpaces_chars, Hall].
    intros c [Hc| ->]; [|split; [discriminate|reflexivity]].
    destruct (isalpha_plain c Hc) as (Hopen & _ & Hdigit). split; [|exact Hdigit].
    intros ->. discriminate Hopen.
Qed.

(** ** Expansion of a validated formula *)

Lemma Ready_start formula st :
  checkParentheses formula = true -> multipliersAttached formula = true ->
  stack st = initUnionStack -> Ready formula st [].
Proof.
  intros Hbal Hatt Hst. unfold multipliersAttached in Hatt.
  apply andb_true_iff in Hatt as [Hfirst Hatt]. apply negb_true_iff in Hfirst.
  repeat split.
  - exact Hst.
  - rewrite <- Hbal. symmetry. apply checkParentheses_isBalanced.
  - exact Hatt.
  - intros H. congruence.
Qed.

Lemma symbols_of_stack es :
  forallb (fun e => isSymbol (chemSymbol e)) es = true ->
  forallb isSymbol (map chemSymbol (rev es)) = true.
Proof.
  intros H. apply forallb_forall. intros w Hw.
  apply in_map_iff in Hw as (e & <- & He). apply in_rev in He.
  apply (proj1 (forallb_forall _ _) H e He).
Qed.

(** A run on a formula that passed the validator and has its multipliers
    attached: it ends, no pop finds a stack empty, and what is returned is
    the symbols of the final stack from bottom to top. *)
Lemma processFormulaRun_attached formula :
  checkParentheses formula = true -> multipliersAttached formula = true ->
  match processFormulaRun formula with
  | Normal (out, st) =>
      (exists symbols, forallb isSymbol symbols = true /\ out = joinSpaces symbols) /\
      emptyPops st = 0%nat
  | Undefined _ st => emptyPops st = 0%nat
  | Starved _ => False
  end.
Proof.
  intros Hbal Hatt. unfold processFormulaRun.
  set (st0 := {| stack := initUnionStack; popped := None; emptyPops := 0 |}).
  assert (Hscan := scan_ready (length formula) formula st0 [] (le_n _)
                     (Ready_start formula st0 Hbal Hatt eq_refl)).
  destruct (scan (length formula) formula st0) as [st1|f st1|st1];
    cbn [bind]; cbn [ScanPost emptyPops st0] in Hscan; try exact Hscan.
  destruct Hscan as (es & Hs1 & Hsym & He1).
  destruct (drainMain_elemStack es (length (top (stack st1))) st1 [] Hs1)
    as (st2 & Hrun2 & He2).
  { rewrite Hs1. cbn [elemStack top]. now rewrite length_map. }
  change initUnionStack with (elemStack []). rewrite Hrun2. cbn [bind]. rewrite app_nil_r.
  set (st3 := {| stack := elemStack (rev es); popped := popped st2;
                 emptyPops := emptyPops st2 |}).
  destruct (drainTemp_elemStack (rev es) (length (top (elemStack (rev es)))) st3 []
              eq_refl) as (st4 & Hrun4 & He4).
  { cbn [elemStack top]. now rewrite length_map. }
  rewrite Hrun4. cbn [bind app]. rewrite trimSpace_spaced. split.
  - exists (map chemSymbol (rev es)). split; [now apply symbols_of_stack|reflexivity].
  - rewrite He4. cbn [st3 emptyPops]. congruence.
Qed.

(** C3, as the code has it: on a formula that [checkParentheses] accepts
    and in which every run of digits directly follows a letter or a closing
    parenthesis, no [popUnion] call of [processFormula] is made on an empty
    stack (and the scan of the model is not cut short). *)
Theorem no_empty_pop_when_multipliers_attached :
  forall formula : cstring,
    checkParentheses formula = true ->
    multipliersAttached formula = true ->
    processFormulaEmptyPops formula = 0%nat /\ processFormula formula <> Unfinished.
Proof.
  intros formula Hbal Hatt.
  assert (H := processFormulaRun_attached formula Hbal Hatt).
  unfold processFormulaEmptyPops, processFormula.
  destruct (processFormulaRun formula) as [[out st]|f st|st].
  - split; [apply H|discriminate].
  - split; [exact H|discriminate].
  - contradiction.
Qed.

Lemma no_empty_pop_when_multipliers_attached_witness :
  checkParentheses "Mg(OH)2" = true /\
  multipliersAttached "Mg(OH)2"%string = true /\
  processFormulaEmptyPops "Mg(OH)2" = 0%nat.
Proof.
  split; [reflexivity|]. split; [reflexivity|].
  apply (proj1 (no_empty_pop_when_multipliers_attached "Mg(OH)2"%string eq_refl eq_refl)).
Defined.

(** An unbalanced formula can make a pop fail as well: on "H)" the loop of
    the closing parenthesis empties the stack and pops once more. *)
Lemma empty_pop_on_unbalanced_formula :
  checkParentheses "H)" = false /\ processFormulaEmptyPops "H)" = 1%nat.
Proof. split; reflexivity. Qed.

(** C3 as stated fails: "2" and "(0)" pass the validator, and the run on
    each of them pops an empty stack once. *)
Lemma empty_pop_on_balanced_formula :
  checkParentheses "2" = true /\ processFormulaEmptyPops "2" = 1%nat /\
  checkParentheses "(0)" = true /\ processFormulaEmptyPops "(0)" = 1%nat /\
  ~ (forall formula : cstring,
       checkParentheses formula = true -> processFormulaEmptyPops formula = 0%nat).
Proof.
  repeat split; try reflexivity.
  intros H. specialize (H "2"%string eq_refl). discriminate H.
Qed.

(** C5, as the code has it: on a formula that [checkParentheses] accepts
    and in which every run of digits directly follows a letter or a closing
    parenthesis, the run of [processFormula] is not cut short, and the
    string it returns is a list of symbols of one to three letters with
    single spaces between them; it has no white space at its end, no group
    marker and no digit. *)
Theorem expansion_well_formed_when_multipliers_attached :
  forall formula : cstring,
    checkParentheses formula = true ->
    multipliersAttached formula = true ->
    processFormula formula <> Unfinished /\
    forall out : cstring,
      processFormula formula = Returned out -> wellFormedExpansion out.
Proof.
  intros formula Hbal Hatt.
  assert (H := processFormulaRun_attached formula Hbal Hatt).
  unfold processFormula.
  destruct (processFormulaRun formula) as [[out' st]|f st|st]; [| |contradiction];
    (split; [discriminate|]); intros out Hout; [|discriminate Hout].
  inversion Hout. subst out'.
  destruct H as [(symbols & Hsym & ->) _]. now apply joinSpaces_wellFormed.
Qed.

Lemma expansion_well_formed_when_multipliers_attached_witness :
  checkParentheses "Mg(OH)2" = true /\
  multipliersAttached "Mg(OH)2"%string = true /\
  processFormula "Mg(OH)2" = Returned "Mg O H O H" /\
  wellFormedExpansion "Mg O H O H"%string.
Proof.
  do 3 (split; [reflexivity|]).
  apply (proj2 (expansion_well_formed_when_multipliers_attached "Mg(OH)2"%string
                  eq_refl eq_refl)).
  reflexivity.
Defined.

(** C5 as stated fails: "(2)" passes the validator and expands to the group
    marker. *)
Lemma marker_in_expansion_of_balanced_formula :
  checkParentheses "(2)" = true /\ processFormula "(2)" = Returned "(" /\
  ~ (forall formula out : cstring,
       checkParentheses formula = true -> processFormula formula = Returned out ->
       wellFormedExpansion out).
Proof.
  repeat split; try reflexivity.
  intros H. destruct (H "(2)"%string "("%string eq_refl eq_refl) as (_ & _ & Hchars).
  inversion Hchars as [|c l [Hopen _] Hl]. now apply Hopen.
Qed.

(** ** The bounds of the loops are large enough *)

Lemma popElement_shrinks st :
  top (stack st) <> [] ->
  (length (top (stack (snd (popElement st)))) < length (top (stack st)))%nat.
Proof.
  unfold popElement, pop, popUnion. destruct (top (stack st)) as [|temp next]; [easy|].
  intros _. cbn [popStatus popStack popOut Z.eqb EXIT_SUCCESS popped].
  assert (H : (length (if Z.eqb (size (stack st) - 1) 0 then [] else next)
               < length (temp :: next))%nat).
  { destruct (size (stack st) - 1 =? 0); simpl; lia. }
  destruct temp; exact H.
Qed.

Lemma popElement_some st e st1 : popElement st = (Some e, st1) -> top (stack st) <> [].
Proof.
  unfold popElement, pop, popUnion. intros H Htop. rewrite Htop in H. discriminate H.
Qed.

Lemma popGroup_finishes fuel : forall st tempArray st',
  (length (top (stack st)) <= fuel)%nat -> popGroup fuel st tempArray <> Starved st'.
Proof.
  induction fuel as [|fuel IH]; intros st tempArray st' Hfuel; rewrite popGroup_unfold;
    destruct (popElement st) as [[e|] st1] eqn:Hpop; try discriminate;
    destruct (negb (isMarker e)); try discriminate;
    destruct (length tempArray <? MAX_FORMULA_LENGTH)%nat; try discriminate;
    assert (Hne := popElement_some _ _ _ Hpop);
    assert (Hlt := popElement_shrinks st Hne); rewrite Hpop in Hlt; cbn [snd] in Hlt.
  - lia.
  - apply IH. lia.
Qed.

Lemma scan_finishes fuel : forall p st st',
  (length p <= fuel)%nat -> scan fuel p st <> Starved st'.
Proof.
  induction fuel as [|fuel IH]; intros p st st' Hfuel;
    (destruct p as [|c rest]; [discriminate|]); [simpl in Hfuel; lia|].
  cbn [scan]. cbn [length] in Hfuel.
  destruct (isalpha c).
  { destruct (readElement (c :: rest)) as [element skip]. apply IH.
    unfold advance. rewrite !length_skipn. cbn [length]. lia. }
  destruct (isdigit c) eqn:Hdigit.
  { destruct (readMultiplier 0 (c :: rest)) as [[g|] p'] eqn:Hread; [|discriminate].
    destruct (readMultiplier_shape _ _ _ _ Hread) as (ds & Hsplit & _ & Hp').
    assert (length p' < length (c :: rest))%nat.
    { apply length_after_prefix with ds; [exact Hsplit|].
      intros ->. cbn [app] in Hsplit. subst p'. cbn in Hp'. congruence. }
    cbn [length] in *. destruct (popElement st) as [[e|] st1]; apply IH; lia. }
  destruct (Ascii.eqb c "("); [apply IH; cbn; lia|].
  destruct (Ascii.eqb c ")"); [|apply IH; cbn; lia].
  destruct (popGroup (length (top (stack st))) st []) as [[ta st1]|f st1|st1] eqn:Hpop;
    cbn [bind]; [|discriminate|now apply popGroup_finishes in Hpop].
  destruct (readGroupMultiplier (advance 1 (c :: rest))) as [[g|] p'] eqn:Hread;
    [|discriminate].
  destruct (readGroupMultiplier_shape _ _ _ Hread) as (ds & Hsplit & _).
  cbn in Hsplit. apply IH. rewrite Hsplit, length_app in Hfuel. lia.
Qed.

Lemma drainMain_finishes fuel : forall st tempStack st',
  (length (top (stack st)) <= fuel)%nat -> drainMain fuel st tempStack <> Starved st'.
Proof.
  induction fuel as [|fuel IH]; intros st tempStack st' Hfuel; cbn [drainMain];
    unfold isEmptyUnion; destruct (top (stack st)) as [|n l] eqn:Htop; try discriminate.
  - simpl in Hfuel. lia.
  - assert (Hlt := popElement_shrinks st). rewrite Htop in Hlt.
    specialize (Hlt ltac:(discriminate)).
    destruct (popElement st) as [[e|] st1]; cbn [snd] in Hlt; apply IH; lia.
Qed.

Lemma drainTemp_finishes fuel : forall st expandedFormula st',
  (length (top (stack st)) <= fuel)%nat -> drainTemp fuel st expandedFormula <> Starved st'.
Proof.
  induction fuel as [|fuel IH]; intros st buf st' Hfuel; cbn [drainTemp];
    unfold isEmptyUnion; destruct (top (stack st)) as [|n l] eqn:Htop; try discriminate.
  - simpl in Hfuel. lia.
  - assert (Hlt := popElement_shrinks st). rewrite Htop in Hlt.
    specialize (Hlt ltac:(discriminate)).
    destruct (popElement st) as [[e|] st1]; cbn [snd] in Hlt; apply IH; lia.
Qed.

(** On every formula the model of [processFormula] runs to the return or
    to a fault: none of its loops is cut short. *)
Lemma processFormula_finishes formula : processFormula formula <> Unfinished.
Proof.
  unfold processFormula, processFormulaRun.
  destruct (scan _ formula _) as [st1|f st1|st1] eqn:Hscan; cbn [bind];
    [|discriminate|now apply scan_finishes in Hscan].
  destruct (drainMain _ st1 _) as [[st2 tempStack]|f st2|st2] eqn:Hmain; cbn [bind];
    [|discriminate|now apply drainMain_finishes in Hmain].
  destruct (drainTemp _ _ _) as [[st4 out]|f st4|st4] eqn:Htemp; cbn [bind];
    [discriminate|discriminate|now apply drainTemp_finishes in Htemp].
Qed.

Lemma countScan_finishes periodicTable fuel : forall p total,
  (length p <= fuel)%nat -> countScan fuel periodicTable p total <> None.
Proof.
  induction fuel as [|fuel IH]; intros p total Hfuel;
    (destruct p as [|c rest]; [discriminate|]); [simpl in Hfuel; lia|].
  cbn [countScan]. cbn [length] in Hfuel.
  destruct (isalpha c).
  - destruct (readElementCount (c :: rest)) as [element skip]. apply IH.
    unfold advance. rewrite !length_skipn. cbn [length]. lia.
  - apply IH. cbn. lia.
Qed.

(** [countProtons] prints a total for every line. *)
Lemma countProtons_finishes periodicTable formula :
  countProtons periodicTable formula <> None.
Proof. apply countScan_finishes. apply le_n. Qed.

(** ** The expander on the scenarios of the specification *)

(** C1, as the code has it: the tokens come out in the order in which the
    formula names them, "H2O" as "H H O" and "Mg(OH)2" as "Mg O H O H". *)
Theorem processFormula_keeps_formula_order :
  processFormula "H2O" = Returned "H H O" /\
  processFormula "Mg(OH)2" = Returned "Mg O H O H".
Proof. split; reflexivity. Qed.

(** C1 as stated fails on both formulas: neither "O H H" nor "O H O H Mg"
    is returned. *)
Lemma processFormula_reversed_order_refuted :
  processFormula "H2O" <> Returned "O H H" /\
  processFormula "Mg(OH)2" <> Returned "O H O H Mg" /\
  ~ (processFormula "H2O" = Returned "O H H" /\
     processFormula "Mg(OH)2" = Returned "O H O H Mg").
Proof.
  assert (H1 : processFormula "H2O" <> Returned "O H H").
  { intros H. vm_compute in H. discriminate H. }
  assert (H2 : processFormula "Mg(OH)2" <> Returned "O H O H Mg").
  { intros H. vm_compute in H. discriminate H. }
  repeat split; try assumption. intros [H _]. exact (H1 H).
Qed.

(** C7: a multiplier of zero removes the token before it and an empty group
    adds nothing: "H0", "()" and "()2" expand to the empty string. *)
Theorem processFormula_zero_and_empty_group :
  processFormula "H0" = Returned "" /\
  processFormula "()" = Returned "" /\
  processFormula "()2" = Returned "".
Proof. repeat split; reflexivity. Qed.

(** ** The proton counter *)

Lemma strcmp0_eq a : forall b, strcmp0 a b = true <-> a = b.
Proof.
  induction a as [|x a IH]; intros [|y b]; cbn [strcmp0]; split; intros H;
    try reflexivity; try discriminate H.
  - apply andb_true_iff in H as [Hxy Hab].
    apply Ascii.eqb_eq in Hxy. apply IH in Hab. congruence.
  - inversion H. subst. rewrite Ascii.eqb_refl. now apply IH.
Qed.

(** The lookup answers -1 for a symbol that no entry carries. *)
Lemma getAtomicNumber_absent elements : forall n symbol,
  Forall (fun e => chemSymbol e <> symbol) elements ->
  getAtomicNumber elements n symbol = -1.
Proof.
  induction elements as [|e elements IH]; intros n symbol Habsent;
    destruct n; try reflexivity.
  inversion Habsent as [|? ? He Hrest]. subst. cbn [getAtomicNumber].
  destruct (strcmp0 (chemSymbol e) symbol) eqn:Hcmp; [|now apply IH].
  apply strcmp0_eq in Hcmp. contradiction.
Qed.

Section ProtonCounter.

Variable periodicTable : list Element.

Hypothesis found_H : getAtomicNumber periodicTable MAX_ELEMENTS "H"%string = 1.
Hypothesis found_O : getAtomicNumber periodicTable MAX_ELEMENTS "O"%string = 8.
Hypothesis found_Mg : getAtomicNumber periodicTable MAX_ELEMENTS "Mg"%string = 12.
Hypothesis absent_D : Forall (fun e => chemSymbol e <> "D"%string) periodicTable.

(** C6: with a table in which H, O and Mg are found with 1, 8 and 12, the
    line "O H O H Mg" totals 30, with or without the newline that [fgets]
    leaves at its end. *)
Theorem countProtons_scenario :
  countProtons periodicTable "O H O H Mg" = Some 30 /\
  countProtons periodicTable ("O H O H Mg"%string ++ ["010"%char])%list = Some 30.
Proof.
  cbn [list_ascii_of_string] in found_H, found_O, found_Mg.
  unfold countProtons. split; cbn -[getAtomicNumber MAX_ELEMENTS Z.add];
    rewrite found_H, found_O, found_Mg; reflexivity.
Qed.

(** C4, at the formula "D2O" with a table that has O with 8 and no D: the
    expansion is "D D O", the lookup of the unknown D answers -1, and each
    D adds that -1 to the total, which is 6 where contributions of 0 would
    make it 8. *)
Theorem countProtons_unknown_symbol_adds_minus_one :
  processFormula "D2O" = Returned "D D O" /\
  getAtomicNumber periodicTable MAX_ELEMENTS "D"%string = -1 /\
  countProtons periodicTable "O" = Some 8 /\
  countProtons periodicTable "D D O" = Some 6.
Proof.
  assert (HD := getAtomicNumber_absent periodicTable MAX_ELEMENTS "D"%string absent_D).
  cbn [list_ascii_of_string] in found_O, HD.
  split; [reflexivity|]. split; [exact HD|].
  unfold countProtons. split; cbn -[getAtomicNumber MAX_ELEMENTS Z.add];
    rewrite ?HD, found_O; reflexivity.
Qed.

End ProtonCounter.

Lemma countProtons_scenario_witness :
  getAtomicNumber scenarioTable MAX_ELEMENTS "H"%string = 1 /\
  getAtomicNumber scenarioTable MAX_ELEMENTS "O"%string = 8 /\
  getAtomicNumber scenarioTable MAX_ELEMENTS "Mg"%string = 12 /\
  countProtons scenarioTable "O H O H Mg" = Some 30.
Proof.
  do 3 (split; [reflexivity|]).
  apply (proj1 (countProtons_scenario scenarioTable eq_refl eq_refl eq_refl)).
Defined.

Lemma countProtons_unknown_symbol_adds_minus_one_witness :
  getAtomicNumber scenarioTable MAX_ELEMENTS "O"%string = 8 /\
  Forall (fun e => chemSymbol e <> "D"%string) scenarioTable /\
  countProtons scenarioTable "D D O" = Some 6.
Proof.
  assert (Habsent : Forall (fun e => chemSymbol e <> "D"%string) scenarioTable).
  { repeat constructor; discriminate. }
  split; [reflexivity|]. split; [exact Habsent|].
  apply (countProtons_unknown_symbol_adds_minus_one scenarioTable eq_refl Habsent).
Defined.

(** * Further properties of the code *)

(** ** unionStack.c: last in, first out *)

Lemma sizeCounts_pushNode stack node : sizeCounts stack -> sizeCounts (pushNode stack node).
Proof.
  destruct node; [apply sizeCounts_pushChar|apply sizeCounts_pushElement].
Qed.

Lemma top_pushNode stack node : top (pushNode stack node) = node :: top stack.
Proof. destruct node; reflexivity. Qed.

Lemma popUnion_pushNode stack node out :
  sizeCounts stack ->
  popUnion (pushNode stack node) out =
  {| popStatus := EXIT_SUCCESS; popStack := stack; popOut := Some node |}.
Proof.
  intros Hsize.
  rewrite (popUnion_cons (pushNode stack node) out node (top stack)
             (sizeCounts_pushNode _ _ Hsize) (top_pushNode _ _)).
  f_equal. destruct stack as [t n]. destruct node; cbn; f_equal; lia.
Qed.

Lemma popMany_pushed nodes : forall stack,
  sizeCounts stack ->
  popMany (length nodes) (fold_left pushNode nodes stack) = (rev nodes, stack).
Proof.
  induction nodes as [|node nodes IH] using rev_ind; intros stack Hsize; [reflexivity|].
  rewrite fold_left_app, length_app, Nat.add_comm, rev_unit. cbn [fold_left length Nat.add popMany].
  rewrite popUnion_pushNode.
  - cbn [popStack popOut]. now rewrite IH.
  - clear IH. revert stack Hsize. induction nodes as [|n nodes IH]; intros stack Hsize;
      [assumption|]. cbn [fold_left]. apply IH, sizeCounts_pushNode, Hsize.
Qed.

(** X1: on a stack reached by pushes and pops from an initialized one,
    nodes pushed one after the other come back from as many pops in the
    reverse order, and the stack is then what it was before. *)
Theorem pops_return_pushes_in_reverse :
  forall (ops : list StackOp) (nodes : list StackNode),
    popMany (length nodes) (fold_left pushNode nodes (runOps ops)) =
    (rev nodes, runOps ops).
Proof.
  intros ops nodes. apply popMany_pushed.
  apply (sizeCounts_fold ops initUnionStack sizeCounts_init).
Qed.

(** X2: on a stack reached by pushes and pops from an initialized one,
    [isEmptyUnion] answers true exactly when the counter [size] is 0, and
    [topUnionType] reports the tag that the next [popUnion] delivers, or its
    error value when that pop fails. *)
Theorem empty_test_peek_and_counter_agree :
  forall ops : list StackOp,
    let stack := runOps ops in
    isEmptyUnion stack = (size stack =? 0) /\
    topUnionType stack = option_map dataType (popOut (popUnion stack None)) /\
    (topUnionType stack = None <-> popStatus (popUnion stack None) = EXIT_FAILURE).
Proof.
  intros ops stack.
  assert (Hsize : sizeCounts stack)
    by apply (sizeCounts_fold ops initUnionStack sizeCounts_init).
  unfold sizeCounts in Hsize. unfold isEmptyUnion, topUnionType, popUnion.
  destruct (top stack) as [|node next]; cbn [length] in Hsize.
  - rewrite Hsize. repeat split; reflexivity.
  - repeat split; try discriminate.
    destruct (Z.eqb_spec (size stack) 0); [lia|reflexivity].
Qed.

(** ** formulaExpander.c: multipliers are decimal numerals *)

Lemma isdigit_digitValue c : isdigit c = true -> 0 <= digitValue c <= 9.
Proof. unfold isdigit, digitValue. change (code "0") with 48. lia. Qed.

Lemma decimalValue_nonneg digits :
  forallb isdigit digits = true -> 0 <= decimalValue digits.
Proof.
  induction digits as [|c more IH]; cbn [forallb decimalValue]; [lia|].
  intros H. apply andb_true_iff in H as [Hc Hmore].
  pose proof (isdigit_digitValue c Hc). specialize (IH Hmore).
  assert (0 < 10 ^ Z.of_nat (length more)) by (apply Z.pow_pos_nonneg; lia). nia.
Qed.

Lemma readMultiplier_decimal rest digits : forall multiplier,
  forallb isdigit digits = true -> isdigit (peek rest 0) = false ->
  0 <= multiplier <= INT_MAX ->
  let value := multiplier * 10 ^ Z.of_nat (length digits) + decimalValue digits in
  (value <= INT_MAX -> readMultiplier multiplier (digits ++ rest) = (Some value, rest)) /\
  (INT_MAX < value -> fst (readMultiplier multiplier (digits ++ rest)) = None).
Proof.
  induction digits as [|c more IH]; intros multiplier Hdigits Hrest Hm value.
  - subst value. cbn [length decimalValue app Z.of_nat].
    rewrite Z.pow_0_r, Z.mul_1_r, Z.add_0_r. split; [|lia].
    intros _. destruct rest as [|c rest]; [reflexivity|].
    cbn in Hrest. cbn [readMultiplier]. now rewrite Hrest.
  - cbn [forallb] in Hdigits. apply andb_true_iff in Hdigits as [Hc Hmore].
    pose proof (isdigit_digitValue c Hc) as Hd.
    pose proof (decimalValue_nonneg more Hmore) as Hv.
    assert (Hpow : 0 < 10 ^ Z.of_nat (length more)) by (apply Z.pow_pos_nonneg; lia).
    assert (Hvalue : value = (multiplier * 10 + digitValue c) * 10 ^ Z.of_nat (length more)
                             + decimalValue more).
    { subst value. cbn [length decimalValue]. rewrite Nat2Z.inj_succ, Z.pow_succ_r by lia. ring. }
    cbn [app readMultiplier]. rewrite Hc. fold (digitValue c).
    destruct (Z.leb_spec (multiplier * 10 + digitValue c) INT_MAX) as [Hle|Hgt].
    + rewrite Hvalue. apply IH; [assumption|assumption|lia].
    + split; [|reflexivity]. intros Hfit. exfalso. rewrite Hvalue in Hfit. nia.
Qed.

(** X3: a run of digits in front of a character that is no digit is read
    as its decimal value (leading zeros allowed) and the cursor stops behind
    it, as long as the value fits an [int]; a greater value is a signed
    overflow in the loop. *)
Theorem readMultiplier_reads_decimal_numeral :
  forall digits rest : cstring,
    forallb isdigit digits = true ->
    isdigit (peek rest 0) = false ->
    (decimalValue digits <= INT_MAX ->
     readMultiplier 0 (digits ++ rest) = (Some (decimalValue digits), rest)) /\
    (INT_MAX < decimalValue digits ->
     fst (readMultiplier 0 (digits ++ rest)) = None).
Proof.
  intros digits rest Hdigits Hrest.
  apply (readMultiplier_decimal rest digits 0 Hdigits Hrest). unfold INT_MAX. lia.
Qed.

Lemma readMultiplier_reads_decimal_numeral_witness :
  forallb isdigit "0012"%string = true /\
  isdigit (peek ")x"%string 0) = false /\
  readMultiplier 0 ("0012"%string ++ ")x"%string) = (Some 12, list_ascii_of_string ")x") /\
  fst (readMultiplier 0 ("2147483648"%string ++ [])) = None.
Proof.
  split; [reflexivity|]. split; [reflexivity|]. split.
  - apply (proj1 (readMultiplier_reads_decimal_numeral "0012"%string ")x"%string
                    eq_refl eq_refl)).
    discriminate.
  - apply (proj2 (readMultiplier_reads_decimal_numeral "2147483648"%string []
                    eq_refl eq_refl)).
    reflexivity.
Defined.

(** ** periodicTable.c: sorting and lookup *)

Lemma setNth_app pre v a rest :
  setNth (length pre) v (pre ++ a :: rest) = pre ++ v :: rest.
Proof. induction pre as [|x pre IH]; [reflexivity|]. cbn. now rewrite IH. Qed.

Lemma nth_error_after pre (l : list Element) k :
  nth_error (pre ++ l) (length pre + k) = nth_error l k.
Proof. induction pre as [|x pre IH]; [reflexivity|exact IH]. Qed.

Lemma swapIfGreater_app pre a b rest :
  swapIfGreater (length pre) (pre ++ a :: b :: rest) =
  pre ++ (if atomicNumber a >? atomicNumber b then b :: a :: rest else a :: b :: rest).
Proof.
  unfold swapIfGreater.
  rewrite <- (Nat.add_0_r (length pre)) at 1. rewrite nth_error_after.
  replace (S (length pre)) with (length pre + 1)%nat by lia. rewrite nth_error_after.
  cbn [nth_error]. destruct (atomicNumber a >? atomicNumber b); [|reflexivity].
  rewrite setNth_app.
  replace (pre ++ b :: b :: rest) with ((pre ++ [b]) ++ b :: rest) by now rewrite <- app_assoc.
  replace (length pre + 1)%nat with (length (pre ++ [b])) by (rewrite length_app; reflexivity).
  rewrite setNth_app. now rewrite <- app_assoc.
Qed.

(** The inner loop, started at index [j] behind [pre], is one pass over the
    rest of the array. *)
Lemma bubbleFrom_app count : forall pre l,
  (count < length l)%nat ->
  bubbleFrom (length pre) count (pre ++ l) = pre ++ bubble count l.
Proof.
  induction count as [|count IH]; intros pre l Hlen; [now destruct l|].
  destruct l as [|a [|b rest]]; cbn [length] in Hlen; try lia.
  cbn [bubbleFrom bubble]. rewrite swapIfGreater_app.
  destruct (atomicNumber a >? atomicNumber b).
  - replace (pre ++ b :: a :: rest) with ((pre ++ [b]) ++ a :: rest)
      by now rewrite <- app_assoc.
    replace (S (length pre)) with (length (pre ++ [b])) by (rewrite length_app; cbn; lia).
    rewrite IH by (cbn; lia). now rewrite <- app_assoc.
  - replace (pre ++ a :: b :: rest) with ((pre ++ [a]) ++ b :: rest)
      by now rewrite <- app_assoc.
    replace (S (length pre)) with (length (pre ++ [a])) by (rewrite length_app; cbn; lia).
    rewrite IH by (cbn; lia). now rewrite <- app_assoc.
Qed.

Lemma bubble_app count : forall l1 l2,
  (count < length l1)%nat -> bubble count (l1 ++ l2) = bubble count l1 ++ l2.
Proof.
  induction count as [|count IH]; intros l1 l2 Hlen; [now destruct l1 as [|a [|b l1]]|].
  destruct l1 as [|a [|b rest]]; cbn [length] in Hlen; try lia.
  cbn [app bubble]. destruct (atomicNumber a >? atomicNumber b).
  - cbn [app]. f_equal. apply (IH (a :: rest) l2). cbn. lia.
  - cbn [app]. f_equal. apply (IH (b :: rest) l2). cbn. lia.
Qed.

(** A full pass moves a greatest element to the end. *)
Lemma bubble_max count : forall l,
  length l = S count ->
  exists front x,
    bubble count l = front ++ [x] /\
    Permutation.Permutation l (front ++ [x]) /\
    Forall (fun e => byAtomicNumber e x) l.
Proof.
  unfold byAtomicNumber.
  induction count as [|count IH]; intros l Hlen.
  - destruct l as [|a [|b rest]]; try discriminate Hlen.
    exists [], a. repeat split; [apply Permutation.Permutation_refl|].
    constructor; [lia|constructor].
  - destruct l as [|a [|b rest]]; try discriminate Hlen.
    cbn [bubble]. destruct (Z.gtb_spec (atomicNumber a) (atomicNumber b)) as [Hgt|Hle].
    + destruct (IH (a :: rest)) as (front & x & Hpass & Hperm & Hmax); [cbn in *; lia|].
      exists (b :: front), x. rewrite Hpass. split; [reflexivity|]. split.
      * cbn [app]. eapply Permutation.perm_trans; [apply Permutation.perm_swap|].
        now apply Permutation.perm_skip.
      * inversion Hmax as [|? ? Ha Hrest]. subst.
        constructor; [assumption|]. constructor; [lia|assumption].
    + destruct (IH (b :: rest)) as (front & x & Hpass & Hperm & Hmax); [cbn in *; lia|].
      exists (a :: front), x. rewrite Hpass. split; [reflexivity|]. split.
      * cbn [app]. now apply Permutation.perm_skip.
      * inversion Hmax as [|? ? Hb Hrest]. subst.
        constructor; [lia|]. constructor; assumption.
Qed.

Lemma sorted_snoc front x :
  Sorted.StronglySorted byAtomicNumber front ->
  Forall (fun e => byAtomicNumber e x) front ->
  Sorted.StronglySorted byAtomicNumber (front ++ [x]).
Proof.
  induction front as [|a front IH]; intros Hsorted Hmax.
  - constructor; constructor.
  - inversion Hsorted as [|? ? Hfront Ha]. inversion Hmax as [|? ? Hax Hrest]. subst.
    cbn [app]. constructor; [now apply IH|].
    apply Forall_app. split; [assumption|]. now constructor.
Qed.

(** The outer loop on an array whose first [S count] entries are [work]. *)
Lemma passesFrom_sorts count : forall i numElements work rest,
  length work = S count -> numElements = i + Z.of_nat (S count) ->
  exists sorted,
    passesFrom i count numElements (work ++ rest) = sorted ++ rest /\
    Permutation.Permutation work sorted /\
    Sorted.StronglySorted byAtomicNumber sorted.
Proof.
  induction count as [|count IH]; intros i n work rest Hlen Hn.
  - exists work. split; [reflexivity|]. split; [apply Permutation.Permutation_refl|].
    destruct work as [|a [|b work]]; try discriminate Hlen.
    constructor; constructor.
  - cbn [passesFrom].
    replace (Z.to_nat (n - i - 1)) with (S count) by lia.
    assert (Hpass := bubbleFrom_app (S count) [] (work ++ rest)).
    cbn [app length] in Hpass. rewrite Hpass by (rewrite length_app; lia).
    rewrite bubble_app by lia.
    destruct (bubble_max (S count) work Hlen) as (front & x & -> & Hperm & Hmax).
    assert (Hfront : length front = S count).
    { apply Permutation.Permutation_length in Hperm.
      rewrite length_app in Hperm. cbn in Hperm. lia. }
    rewrite <- app_assoc.
    destruct (IH (i + 1) n front ([x] ++ rest) Hfront) as (sorted & -> & Hperm' & Hsorted);
      [lia|].
    exists (sorted ++ [x]). rewrite <- app_assoc. split; [reflexivity|]. split.
    + eapply Permutation.perm_trans; [exact Hperm|].
      now apply Permutation.Permutation_app_tail.
    + apply sorted_snoc; [assumption|].
      apply Forall_forall. intros e He.
      apply (proj1 (Forall_forall _ _) Hmax).
      apply Permutation.Permutation_in with (front ++ [x]);
        [now apply Permutation.Permutation_sym|].
      apply in_or_app. left.
      apply Permutation.Permutation_in with sorted;
        [now apply Permutation.Permutation_sym|assumption].
Qed.

Lemma firstn_exact {A : Type} (l1 l2 : list A) : firstn (length l1) (l1 ++ l2) = l1.
Proof. induction l1 as [|a l1 IH]; [reflexivity|]. cbn. now rewrite IH. Qed.

Lemma skipn_exact {A : Type} (l1 l2 : list A) : skipn (length l1) (l1 ++ l2) = l2.
Proof. induction l1 as [|a l1 IH]; [reflexivity|exact IH]. Qed.

Lemma sortPeriodicTable_prefix :
  forall (elements : list Element) (numElements : Z),
    (Z.to_nat numElements <= length elements)%nat ->
    let n := Z.to_nat numElements in
    let sorted := sortPeriodicTable elements numElements in
    Sorted.StronglySorted byAtomicNumber (firstn n sorted) /\
    Permutation.Permutation (firstn n elements) (firstn n sorted) /\
    skipn n sorted = skipn n elements /\
    length sorted = length elements.
Proof.
  intros elements numElements Hfit n sorted. subst sorted. unfold sortPeriodicTable.
  destruct (Z.to_nat (numElements - 1)) as [|count] eqn:Hcount.
  - cbn [passesFrom]. repeat split; [|apply Permutation.Permutation_refl].
    assert (Hn : (n <= 1)%nat) by (subst n; lia).
    assert (Hlen : (length (firstn n elements) <= 1)%nat) by (rewrite length_firstn; lia).
    destruct (firstn n elements) as [|a [|b l]];
      [constructor|constructor; constructor|cbn in Hlen; lia].
  - assert (Hn : n = S (S count)) by (subst n; lia).
    assert (Hlen : length (firstn n elements) = S (S count))
      by (rewrite length_firstn; lia).
    destruct (passesFrom_sorts (S count) 0 numElements (firstn n elements)
                (skipn n elements) Hlen) as (sorted & Hrun & Hperm & Hsorted); [lia|].
    rewrite firstn_skipn in Hrun. rewrite Hrun.
    assert (Hlen' : length sorted = n).
    { apply Permutation.Permutation_length in Hperm. lia. }
    assert (Hfirst : firstn n (sorted ++ skipn n elements) = sorted).
    { rewrite <- Hlen' at 1. apply firstn_exact. }
    assert (Hskip : skipn n (sorted ++ skipn n elements) = skipn n elements).
    { rewrite <- Hlen' at 1. apply skipn_exact. }
    rewrite Hfirst, Hskip.
    assert (Hlength : length (sorted ++ skipn n elements) = length elements).
    { rewrite length_app, Hlen', length_skipn. lia. }
    repeat split; assumption.
Qed.

(** X4: [sortPeriodicTable] on the first [numElements] entries of an array
    that has them: afterwards these entries are the same entries in
    ascending order of atomic number, and the entries behind them and the
    length of the array are as before. *)
Theorem sortPeriodicTable_sorts_prefix :
  forall (elements : list Element) (numElements : Z),
    (Z.to_nat numElements <= length elements)%nat ->
    let n := Z.to_nat numElements in
    let sorted := sortPeriodicTable elements numElements in
    Sorted.StronglySorted byAtomicNumber (firstn n sorted) /\
    Permutation.Permutation (firstn n elements) (firstn n sorted) /\
    skipn n sorted = skipn n elements /\
    length sorted = length elements.
Proof. exact sortPeriodicTable_prefix. Qed.

Lemma sortPeriodicTable_sorts_prefix_witness :
  (Z.to_nat 3 <= length (mkElement "Mg" 12 :: scenarioTable))%nat /\
  firstn 3 (sortPeriodicTable (mkElement "Mg" 12 :: scenarioTable) 3) =
    [mkElement "H" 1; mkElement "O" 8; mkElement "Mg" 12] /\
  Sorted.StronglySorted byAtomicNumber
    (firstn 3 (sortPeriodicTable (mkElement "Mg" 12 :: scenarioTable) 3)).
Proof.
  assert (Hfit : (Z.to_nat 3 <= length (mkElement "Mg" 12 :: scenarioTable))%nat)
    by (cbn; lia).
  split; [exact Hfit|]. split; [reflexivity|].
  exact (proj1 (sortPeriodicTable_sorts_prefix (mkElement "Mg" 12 :: scenarioTable) 3 Hfit)).
Defined.

(** The lookup is a search for the first entry with the symbol. *)
Lemma getAtomicNumber_find elements : forall n symbol,
  getAtomicNumber elements n symbol =
  match find (fun e => strcmp0 (chemSymbol e) symbol) (firstn n elements) with
  | Some e => atomicNumber e
  | None => -1
  end.
Proof.
  induction elements as [|e elements IH]; intros n symbol; destruct n; try reflexivity.
  cbn [getAtomicNumber firstn find].
  destruct (strcmp0 (chemSymbol e) symbol); [reflexivity|apply IH].
Qed.

Lemma find_unique_symbol l : forall e,
  List.NoDup (map chemSymbol l) -> In e l ->
  find (fun x => strcmp0 (chemSymbol x) (chemSymbol e)) l = Some e.
Proof.
  induction l as [|x l IH]; intros e Hnodup Hin; [contradiction|].
  inversion Hnodup as [|? ? Hx Hl]. subst. cbn [find].
  destruct Hin as [->|Hin].
  - now rewrite (proj2 (strcmp0_eq _ _) eq_refl).
  - destruct (strcmp0 (chemSymbol x) (chemSymbol e)) eqn:Hcmp; [|now apply IH].
    apply strcmp0_eq in Hcmp. exfalso. apply Hx. rewrite Hcmp. now apply in_map.
Qed.

Lemma find_absent_symbol l symbol :
  ~ In symbol (map chemSymbol l) ->
  find (fun x => strcmp0 (chemSymbol x) symbol) l = None.
Proof.
  induction l as [|x l IH]; intros Habsent; [reflexivity|]. cbn [find].
  destruct (strcmp0 (chemSymbol x) symbol) eqn:Hcmp.
  - apply strcmp0_eq in Hcmp. exfalso. apply Habsent. left. exact Hcmp.
  - apply IH. intros Hin. apply Habsent. now right.
Qed.

(** X5: among the first [n] entries of a table whose symbols there are
    pairwise distinct, the lookup of the symbol of an entry answers the
    atomic number of that entry, and the lookup of a symbol that no entry
    there carries answers -1. *)
Theorem getAtomicNumber_finds_unique_symbol :
  forall (elements : list Element) (n : nat),
    List.NoDup (map chemSymbol (firstn n elements)) ->
    (forall e, In e (firstn n elements) ->
               getAtomicNumber elements n (chemSymbol e) = atomicNumber e) /\
    (forall symbol, ~ In symbol (map chemSymbol (firstn n elements)) ->
                    getAtomicNumber elements n symbol = -1).
Proof.
  intros elements n Hnodup. split.
  - intros e Hin. rewrite getAtomicNumber_find.
    now rewrite (find_unique_symbol _ e Hnodup Hin).
  - intros symbol Habsent. rewrite getAtomicNumber_find.
    now rewrite (find_absent_symbol _ symbol Habsent).
Qed.

Lemma getAtomicNumber_finds_unique_symbol_witness :
  List.NoDup (map chemSymbol (firstn 3 scenarioTable)) /\
  getAtomicNumber scenarioTable 3 "Mg"%string = 12 /\
  getAtomicNumber scenarioTable 3 "Xx"%string = -1.
Proof.
  assert (Hnodup : List.NoDup (map chemSymbol (firstn 3 scenarioTable))).
  { repeat constructor; cbn; intuition discriminate. }
  split; [exact Hnodup|]. split.
  - apply (proj1 (getAtomicNumber_finds_unique_symbol scenarioTable 3 Hnodup)
             (mkElement "Mg" 12)).
    cbn. auto.
  - apply (proj2 (getAtomicNumber_finds_unique_symbol scenarioTable 3 Hnodup)).
    cbn. intuition discriminate.
Defined.

Lemma firstn_split {A : Type} (l : list A) : forall n m,
  (n <= m)%nat -> firstn m l = firstn n l ++ firstn (m - n) (skipn n l).
Proof.
  induction l as [|a l IH]; intros n m Hle.
  - now rewrite !firstn_nil, skipn_nil, firstn_nil.
  - destruct n; [now rewrite Nat.sub_0_r|].
    destruct m; [lia|]. cbn. now rewrite (IH n m) by lia.
Qed.

Lemma find_permutation l l' symbol :
  Permutation.Permutation l l' -> List.NoDup (map chemSymbol l) ->
  find (fun x => strcmp0 (chemSymbol x) symbol) l' =
  find (fun x => strcmp0 (chemSymbol x) symbol) l.
Proof.
  intros Hperm Hnodup.
  assert (Hnodup' : List.NoDup (map chemSymbol l')).
  { eapply Permutation.Permutation_NoDup; [|exact Hnodup].
    now apply Permutation.Permutation_map. }
  destruct (find (fun x => strcmp0 (chemSymbol x) symbol) l) as [e|] eqn:Hfind.
  - apply find_some in Hfind as [Hin Hcmp]. apply strcmp0_eq in Hcmp. subst symbol.
    apply find_unique_symbol; [assumption|].
    now apply Permutation.Permutation_in with l.
  - apply find_absent_symbol. intros Hin.
    apply in_map_iff in Hin as (e & Hsym & He).
    apply Permutation.Permutation_in with (l' := l) in He;
      [|now apply Permutation.Permutation_sym].
    apply (find_none _ _ Hfind) in He. rewrite Hsym in He.
    now rewrite (proj2 (strcmp0_eq _ _) eq_refl) in He.
Qed.

(** X6: sorting the first [numElements] entries changes no lookup over the
    first [m] entries, [m] at least [numElements], when the symbols of these
    [m] entries are pairwise distinct. *)
Theorem sortPeriodicTable_keeps_lookups :
  forall (elements : list Element) (numElements : Z) (m : nat) (symbol : cstring),
    (Z.to_nat numElements <= length elements)%nat ->
    (Z.to_nat numElements <= m)%nat ->
    List.NoDup (map chemSymbol (firstn m elements)) ->
    getAtomicNumber (sortPeriodicTable elements numElements) m symbol =
    getAtomicNumber elements m symbol.
Proof.
  intros elements numElements m symbol Hfit Hm Hnodup.
  destruct (sortPeriodicTable_prefix elements numElements Hfit)
    as (_ & Hperm & Hskip & _).
  rewrite !getAtomicNumber_find.
  rewrite (find_permutation (firstn m elements)
             (firstn m (sortPeriodicTable elements numElements)) symbol);
    [reflexivity| |exact Hnodup].
  rewrite (firstn_split elements _ m Hm),
          (firstn_split (sortPeriodicTable elements numElements) _ m Hm), Hskip.
  now apply Permutation.Permutation_app_tail.
Qed.

Lemma sortPeriodicTable_keeps_lookups_witness :
  List.NoDup (map chemSymbol (firstn MAX_ELEMENTS (mkElement "Xe" 54 :: scenarioTable))) /\
  getAtomicNumber (sortPeriodicTable (mkElement "Xe" 54 :: scenarioTable) 4)
                  MAX_ELEMENTS "O"%string = 8.
Proof.
  assert (Hnodup : List.NoDup (map chemSymbol
                     (firstn MAX_ELEMENTS (mkElement "Xe" 54 :: scenarioTable)))).
  { repeat constructor; cbn; intuition discriminate. }
  split; [exact Hnodup|].
  rewrite (sortPeriodicTable_keeps_lookups
             (mkElement "Xe" 54 :: scenarioTable) 4 MAX_ELEMENTS "O"%string).
  - reflexivity.
  - vm_compute. lia.
  - vm_compute. lia.
  - exact Hnodup.
Defined.

(** With a symbol entered twice the sort can change what a lookup finds. *)
Lemma sortPeriodicTable_changes_lookup_of_duplicate :
  getAtomicNumber (mkElement "H" 2 :: mkElement "H" 1 :: nil) 2 "H"%string = 2 /\
  getAtomicNumber (sortPeriodicTable (mkElement "H" 2 :: mkElement "H" 1 :: nil) 2)
                  2 "H"%string = 1.
Proof. split; reflexivity. Qed.

(** ** formulaExpander.c: the expansion of a formula tree *)

Lemma isupper_isalpha c : isupper c = true -> isalpha c = true.
Proof. unfold isalpha. now intros ->. Qed.

Lemma isupper_not_islower c : isupper c = true -> islower c = false.
Proof. unfold isupper, islower. lia. Qed.

Lemma isupper_not_isdigit c : isupper c = true -> isdigit c = false.
Proof. unfold isupper, isdigit. lia. Qed.

Lemma isdigit_not_islower c : isdigit c = true -> islower c = false.
Proof. unfold isdigit, islower. lia. Qed.

Lemma isdigit_not_isalpha c : isdigit c = true -> isalpha c = false.
Proof. unfold isdigit, isalpha, isupper, islower. lia. Qed.

Lemma properSymbol_head symbol :
  properSymbol symbol = true ->
  exists a more, symbol = a :: more /\ isupper a = true.
Proof.
  destruct symbol as [|a [|b [|c [|d more]]]]; cbn [properSymbol]; intros H;
    try discriminate H; exists a; eexists; (split; [reflexivity|]).
  - exact H.
  - now apply andb_true_iff in H as [H _].
  - apply andb_true_iff in H as [H _]. now apply andb_true_iff in H as [H _].
Qed.

Lemma properSymbol_isSymbol symbol : properSymbol symbol = true -> isSymbol symbol = true.
Proof.
  unfold isSymbol.
  destruct symbol as [|a [|b [|c [|d more]]]]; cbn [properSymbol]; intros H;
    try discriminate H; cbn -[isalpha].
  - now rewrite (isupper_isalpha a H).
  - apply andb_true_iff in H as [Ha Hb].
    now rewrite (isupper_isalpha a Ha), (islower_isalpha b Hb).
  - apply andb_true_iff in H as [H Hc]. apply andb_true_iff in H as [Ha Hb].
    now rewrite (isupper_isalpha a Ha), (islower_isalpha b Hb), (islower_isalpha c Hc).
Qed.

(** In front of a character that is no lowercase letter the tokenizer reads
    a proper symbol whole and moves the cursor behind it. *)
Lemma readElement_proper symbol tail :
  properSymbol symbol = true -> islower (peek tail 0) = false ->
  readElement (symbol ++ tail) =
    ({| chemSymbol := symbol; atomicNumber := 1 |}, pred (length symbol)) /\
  advance 1 (advance (pred (length symbol)) (symbol ++ tail)) = tail.
Proof.
  unfold readElement, peek, advance.
  destruct symbol as [|a [|b [|c [|d more]]]]; cbn [properSymbol]; intros H Htail;
    try discriminate H; cbn [app nth length pred skipn].
  - rewrite H, Htail. now split.
  - apply andb_true_iff in H as [Ha Hb]. rewrite Ha, Hb, Htail. now split.
  - apply andb_true_iff in H as [H Hc]. apply andb_true_iff in H as [Ha Hb].
    rewrite Ha, Hb, Hc. now split.
Qed.

Lemma printFormula_boundary f rest :
  properFormula f = true ->
  islower (peek rest 0) = false -> isdigit (peek rest 0) = false ->
  islower (peek (printFormula f ++ rest) 0) = false /\
  isdigit (peek (printFormula f ++ rest) 0) = false.
Proof.
  intros Hf Hlower Hdigit. destruct f as [|symbol m more|body m more].
  - now split.
  - cbn [properFormula] in Hf. apply andb_true_iff in Hf as [Hf _].
    apply andb_true_iff in Hf as [Hs _].
    destruct (properSymbol_head symbol Hs) as (a & tl & -> & Ha).
    cbn. split; [now apply isupper_not_islower|now apply isupper_not_isdigit].
  - now split.
Qed.

Lemma rev_repeat {A : Type} (x : A) n : rev (repeat x n) = repeat x n.
Proof.
  induction n as [|n IH]; [reflexivity|]. cbn [repeat rev]. rewrite IH.
  clear IH. induction n as [|n IH]; [reflexivity|]. cbn. now rewrite IH.
Qed.

Lemma replay_concat g group es : replay g group es = concat (repeat group g) ++ es.
Proof.
  unfold replay. induction g as [|g IH]; [reflexivity|].
  rewrite Nat.iter_succ, IH. cbn [repeat concat]. now rewrite app_assoc.
Qed.

Lemma rev_concat_repeat {A : Type} (l : list A) g :
  rev (concat (repeat l g)) = concat (repeat (rev l) g).
Proof.
  induction g as [|g IH]; [reflexivity|].
  cbn [repeat concat]. rewrite rev_app_distr, IH. clear IH.
  induction g as [|g IH]; [cbn; now rewrite app_nil_r|].
  cbn [repeat concat]. now rewrite <- app_assoc, IH.
Qed.

Lemma tokens_app a b : tokens (a ++ b) = tokens a ++ tokens b.
Proof. apply map_app. Qed.

Lemma tokens_repeat symbol n :
  tokens (repeat symbol n) = repeat {| chemSymbol := symbol; atomicNumber := 1 |} n.
Proof. unfold tokens. induction n as [|n IH]; [reflexivity|]. cbn. now rewrite IH. Qed.

Lemma tokens_concat_repeat symbols n :
  tokens (concat (repeat symbols n)) = concat (repeat (tokens symbols) n).
Proof.
  induction n as [|n IH]; [reflexivity|]. cbn [repeat concat]. now rewrite tokens_app, IH.
Qed.

Lemma expansion_proper f :
  properFormula f = true -> forallb properSymbol (expansion f) = true.
Proof.
  induction f as [|symbol m more IH|body IHbody m more IH]; cbn [properFormula expansion];
    intros Hf; [reflexivity| |].
  - apply andb_true_iff in Hf as [Hf Hmore]. apply andb_true_iff in Hf as [Hs _].
    rewrite forallb_app, (IH Hmore), andb_true_r.
    induction (multiplierValue m) as [|n IHn]; [reflexivity|]. cbn. now rewrite Hs.
  - apply andb_true_iff in Hf as [Hf Hmore]. apply andb_true_iff in Hf as [Hf _].
    apply andb_true_iff in Hf as [Hbody _].
    rewrite forallb_app, (IH Hmore), andb_true_r. specialize (IHbody Hbody).
    induction (multiplierValue m) as [|n IHn]; [reflexivity|].
    cbn [repeat concat]. now rewrite forallb_app, IHbody.
Qed.

Lemma tokens_not_markers symbols :
  forallb properSymbol symbols = true ->
  forallb (fun e => negb (isMarker e)) (tokens symbols) = true.
Proof.
  induction symbols as [|s symbols IH]; [reflexivity|]. cbn [forallb tokens map].
  intros H. apply andb_true_iff in H as [Hs H].
  rewrite (isSymbol_not_marker s 1 (properSymbol_isSymbol s Hs)). now apply IH.
Qed.

(** The loop of the closing parenthesis on a group that fits [tempArray]. *)
Lemma popGroup_fits toks : forall fuel st tempArray m below,
  stack st = elemStack (toks ++ m :: below) ->
  forallb (fun e => negb (isMarker e)) toks = true ->
  isMarker m = true ->
  (length toks <= fuel)%nat ->
  (length tempArray + length toks <= MAX_FORMULA_LENGTH)%nat ->
  exists st', popGroup fuel st tempArray = Normal (tempArray ++ toks, st') /\
              stack st' = elemStack below /\ emptyPops st' = emptyPops st.
Proof.
  induction toks as [|e toks IH]; intros fuel st tempArray m below Hst Htoks Hm Hfuel Hfit;
    rewrite popGroup_unfold.
  - destruct (popElement_cons st m below Hst) as (st1 & -> & Hs1 & He1).
    rewrite Hm. cbn [negb]. rewrite app_nil_r. now exists st1.
  - cbn [forallb] in Htoks. apply andb_true_iff in Htoks as [He Htoks].
    destruct (popElement_cons st e (toks ++ m :: below) Hst) as (st1 & -> & Hs1 & He1).
    rewrite He. cbn [length] in Hfit, Hfuel.
    replace (length tempArray <? MAX_FORMULA_LENGTH)%nat with true
      by (symmetry; apply Nat.ltb_lt; lia).
    destruct fuel as [|fuel]; [lia|].
    destruct (IH fuel st1 (tempArray ++ [e]) m below Hs1 Htoks Hm) as (st' & Hrun & Hs' & He');
      [lia|rewrite length_app; cbn; lia|].
    exists st'. rewrite Hrun, <- app_assoc. repeat split; [assumption|congruence].
Qed.

(** The same loop on a group that does not fit: a write past the array. *)
Lemma popGroup_overflows toks : forall fuel st tempArray m below,
  stack st = elemStack (toks ++ m :: below) ->
  forallb (fun e => negb (isMarker e)) toks = true ->
  (length toks <= fuel)%nat ->
  (length tempArray <= MAX_FORMULA_LENGTH)%nat ->
  (MAX_FORMULA_LENGTH < length tempArray + length toks)%nat ->
  exists st', popGroup fuel st tempArray = Undefined TempArrayOverflow st'.
Proof.
  induction toks as [|e toks IH]; intros fuel st tempArray m below Hst Htoks Hfuel Hta Hover;
    [cbn in Hover; lia|].
  rewrite popGroup_unfold.
  cbn [forallb] in Htoks. apply andb_true_iff in Htoks as [He Htoks].
  destruct (popElement_cons st e (toks ++ m :: below) Hst) as (st1 & -> & Hs1 & He1).
  rewrite He. cbn [length] in Hfuel, Hover.
  destruct (Nat.ltb_spec (length tempArray) MAX_FORMULA_LENGTH) as [Hlt|Hge];
    [|now exists st1].
  destruct fuel as [|fuel]; [lia|].
  apply (IH fuel st1 (tempArray ++ [e]) m below Hs1 Htoks); rewrite ?length_app; cbn; lia.
Qed.

Lemma scan_nil fuel st : scan fuel [] st = Normal st.
Proof. destruct fuel; reflexivity. Qed.

(** One turn of the scanning loop at a proper symbol. *)
Lemma scan_symbol fuel symbol tail st :
  properSymbol symbol = true -> islower (peek tail 0) = false ->
  scan (S fuel) (symbol ++ tail) st =
  scan fuel tail (push st {| chemSymbol := symbol; atomicNumber := 1 |}).
Proof.
  intros Hs Htail. destruct (readElement_proper symbol tail Hs Htail) as [Hread Hadv].
  destruct (properSymbol_head symbol Hs) as (a & tl & Heq & Ha).
  revert Hread Hadv. rewrite Heq.
  intros Hread Hadv. cbn [app scan]. rewrite (isupper_isalpha a Ha).
  change (a :: tl ++ tail) with ((a :: tl) ++ tail). now rewrite Hread, Hadv.
Qed.

(** One turn of the scanning loop at a written multiplier behind an
    element. *)
Lemma scan_multiplier fuel digits tail st e es :
  properMultiplier (Some digits) = true -> isdigit (peek tail 0) = false ->
  stack st = elemStack (e :: es) ->
  exists st',
    scan (S fuel) (digits ++ tail) st = scan fuel tail st' /\
    stack st' = elemStack (repeat e (multiplierValue (Some digits)) ++ es) /\
    emptyPops st' = emptyPops st.
Proof.
  cbn [properMultiplier multiplierValue]. intros Hm Htail Hst.
  apply andb_true_iff in Hm as [Hm Hfit]. apply andb_true_iff in Hm as [Hne Hdigits].
  apply Z.leb_le in Hfit.
  assert (Hread : readMultiplier 0 (digits ++ tail) = (Some (decimalValue digits), tail)).
  { apply (readMultiplier_decimal tail digits 0 Hdigits Htail); [unfold INT_MAX|]; lia. }
  destruct digits as [|d digits]; [discriminate Hne|].
  cbn [forallb] in Hdigits. apply andb_true_iff in Hdigits as [Hd _].
  revert Hread. cbn [app scan]. intros Hread.
  rewrite (isdigit_not_isalpha d Hd), Hd, Hread.
  destruct (popElement_cons st e es Hst) as (st1 & -> & Hs1 & He1).
  destruct (pushCopies_elemStack (decimalValue (d :: digits)) e st1 es Hs1) as [Hs2 He2].
  eexists. split; [reflexivity|]. split; [exact Hs2|congruence].
Qed.

(** The multiplier behind a closing parenthesis. *)
Lemma readGroupMultiplier_proper multiplier tail :
  properMultiplier multiplier = true -> isdigit (peek tail 0) = false ->
  readGroupMultiplier (printMultiplier multiplier ++ tail) =
  (Some (Z.of_nat (multiplierValue multiplier)), tail).
Proof.
  unfold readGroupMultiplier. destruct multiplier as [digits|];
    cbn [properMultiplier printMultiplier multiplierValue app]; intros Hm Htail.
  - apply andb_true_iff in Hm as [Hm Hfit]. apply andb_true_iff in Hm as [Hne Hdigits].
    apply Z.leb_le in Hfit.
    pose proof (decimalValue_nonneg digits Hdigits) as Hpos.
    assert (Hread : readMultiplier 0 (digits ++ tail) = (Some (decimalValue digits), tail)).
    { apply (readMultiplier_decimal tail digits 0 Hdigits Htail); [unfold INT_MAX|]; lia. }
    rewrite Z2Nat.id by assumption.
    destruct digits as [|d digits]; [discriminate Hne|].
    cbn [forallb] in Hdigits. apply andb_true_iff in Hdigits as [Hd _].
    cbn [app peek nth] in *. now rewrite Hd.
  - now rewrite Htail.
Qed.

Lemma scan_open fuel p st :
  scan (S fuel) ("("%char :: p) st = scan fuel p (push st dummy).
Proof. reflexivity. Qed.

Lemma scan_close fuel p st :
  scan (S fuel) (")"%char :: p) st =
  bind (popGroup (length (top (stack st))) st [])
       (fun '(tempArray, st1) =>
          match readGroupMultiplier p with
          | (None, _) => Undefined IntOverflow st1
          | (Some groupMultiplier, p') =>
              scan fuel p' (pushGroup groupMultiplier tempArray st1)
          end).
Proof. reflexivity. Qed.

Lemma length_top_elemStack st es :
  stack st = elemStack es -> length (top (stack st)) = length es.
Proof. intros ->. cbn [elemStack top]. apply length_map. Qed.

(** The scanning loop over the text of a proper formula pushes the atoms
    of its expansion, and no pop of it fails. *)
Lemma scan_printFormula f : forall rest st es fuel,
  properFormula f = true ->
  stack st = elemStack es ->
  islower (peek rest 0) = false -> isdigit (peek rest 0) = false ->
  (length (printFormula f ++ rest) <= fuel)%nat ->
  exists fuel' st',
    scan fuel (printFormula f ++ rest) st = scan fuel' rest st' /\
    (length rest <= fuel')%nat /\
    stack st' = elemStack (rev (tokens (expansion f)) ++ es) /\
    emptyPops st' = emptyPops st.
Proof.
  induction f as [|symbol m more IH|body IHbody m more IH];
    intros rest st es fuel Hf Hst Hlower Hdigit Hfuel.
  - exists fuel, st. now repeat split.
  - cbn [properFormula] in Hf. apply andb_true_iff in Hf as [Hf Hmore].
    apply andb_true_iff in Hf as [Hs Hm].
    destruct (printFormula_boundary more rest Hmore Hlower Hdigit) as [Hlow' Hdig'].
    destruct (properSymbol_head symbol Hs) as (a & tl & Hsym & _).
    cbn [printFormula expansion] in *. rewrite <- !app_assoc in *.
    set (e := {| chemSymbol := symbol; atomicNumber := 1 |}).
    destruct (push_elemStack st e es Hst) as [Hs1 He1].
    assert (Hlen : (length symbol >= 1)%nat) by (rewrite Hsym; cbn; lia).
    rewrite !length_app in Hfuel.
    destruct fuel as [|fuel]; [lia|].
    destruct m as [digits|]; cbn [printMultiplier] in *.
    + assert (Hdigits : exists d ds, digits = d :: ds /\ isdigit d = true).
      { cbn [properMultiplier] in Hm. apply andb_true_iff in Hm as [Hm _].
        apply andb_true_iff in Hm as [Hne Hall].
        destruct digits as [|d ds]; [discriminate Hne|]. exists d, ds.
        cbn [forallb] in Hall. now apply andb_true_iff in Hall as [-> _]. }
      destruct Hdigits as (d & ds & Hd & Hdd).
      rewrite scan_symbol;
        [|assumption|rewrite Hd; cbn; now apply isdigit_not_islower].
      fold e.
      assert (Hdlen : (length digits >= 1)%nat) by (rewrite Hd; cbn; lia).
      destruct fuel as [|fuel]; [lia|].
      destruct (scan_multiplier fuel digits (printFormula more ++ rest) (push st e) e es
                  Hm Hdig' Hs1) as (st2 & -> & Hs2 & He2).
      destruct (IH rest st2 _ fuel Hmore Hs2 Hlower Hdigit) as (fuel' & st' & -> & Hf' & Hs' & He');
        [rewrite length_app; lia|].
      exists fuel', st'. split; [reflexivity|]. split; [assumption|]. split; [|congruence].
      rewrite Hs'. f_equal. rewrite tokens_app, rev_app_distr, tokens_repeat, rev_repeat.
      now rewrite <- app_assoc.
    + cbn [app]. rewrite scan_symbol by assumption. fold e.
      destruct (IH rest (push st e) (e :: es) fuel Hmore Hs1 Hlower Hdigit)
        as (fuel' & st' & -> & Hf' & Hs' & He'); [rewrite length_app; cbn in *; lia|].
      exists fuel', st'. split; [reflexivity|]. split; [assumption|]. split; [|congruence].
      rewrite Hs'. f_equal. cbn [multiplierValue repeat app tokens map rev].
      now rewrite <- app_assoc.
  - cbn [properFormula] in Hf. apply andb_true_iff in Hf as [Hf Hmore].
    apply andb_true_iff in Hf as [Hf Hm]. apply andb_true_iff in Hf as [Hbody Hsize].
    apply Nat.leb_le in Hsize.
    destruct (printFormula_boundary more rest Hmore Hlower Hdigit) as [Hlow' Hdig'].
    cbn [printFormula expansion] in *. cbn [app] in *.
    rewrite <- !app_assoc in *. cbn [app] in *. cbn [length] in Hfuel.
    rewrite !length_app in Hfuel. cbn [length] in Hfuel. rewrite !length_app in Hfuel.
    destruct fuel as [|fuel]; [lia|].
    rewrite scan_open. rewrite <- !app_assoc.
    destruct (push_elemStack st dummy es Hst) as [Hs0 He0].
    set (tail := printMultiplier m ++ printFormula more ++ rest) in *.
    destruct (IHbody (")"%char :: tail) (push st dummy) (dummy :: es) fuel Hbody Hs0
                eq_refl eq_refl)
      as (fuel1 & st1 & -> & Hf1 & Hs1 & He1);
      [rewrite length_app; cbn [length]; unfold tail; rewrite !length_app; lia|].
    cbn [length] in Hf1. destruct fuel1 as [|fuel1]; [lia|].
    rewrite scan_close.
    set (toks := rev (tokens (expansion body))) in *.
    assert (Htoks : forallb (fun e => negb (isMarker e)) toks = true).
    { apply forallb_forall. intros e He. apply in_rev in He.
      apply (proj1 (forallb_forall _ _)
               (tokens_not_markers _ (expansion_proper body Hbody))), He. }
    assert (Hlen : length toks = length (expansion body)).
    { unfold toks, tokens. now rewrite length_rev, length_map. }
    destruct (popGroup_fits toks (length (top (stack st1))) st1 [] dummy es Hs1 Htoks eq_refl)
      as (st2 & -> & Hs2 & He2).
    { rewrite (length_top_elemStack st1 _ Hs1), length_app. lia. }
    { cbn [length]. lia. }
    cbn [bind app]. unfold tail. rewrite (readGroupMultiplier_proper m _ Hm Hdig').
    destruct (pushGroup_elemStack (Z.of_nat (multiplierValue m)) toks st2 es Hs2)
      as [Hs3 He3].
    rewrite Nat2Z.id in Hs3.
    destruct (IH rest _ _ fuel1 Hmore Hs3 Hlower Hdigit)
      as (fuel' & st' & -> & Hf' & Hs' & He');
      [unfold tail in Hf1; rewrite !length_app in Hf1; rewrite length_app; lia|].
    exists fuel', st'. split; [reflexivity|]. split; [assumption|]. split; [|congruence].
    rewrite Hs'. f_equal.
    rewrite replay_concat, tokens_app, rev_app_distr, tokens_concat_repeat, rev_concat_repeat.
    now rewrite <- app_assoc.
Qed.


(** From the end of the scanning loop to the string returned: the symbols
    on the stack from bottom to top. *)
Lemma processFormulaRun_after_scan formula st1 es :
  scan (length formula) formula
       {| stack := initUnionStack; popped := None; emptyPops := 0 |} = Normal st1 ->
  stack st1 = elemStack es ->
  exists st4,
    processFormulaRun formula = Normal (joinSpaces (map chemSymbol (rev es)), st4) /\
    emptyPops st4 = emptyPops st1.
Proof.
  intros Hscan Hs1. unfold processFormulaRun. rewrite Hscan. cbn [bind].
  destruct (drainMain_elemStack es (length (top (stack st1))) st1 [] Hs1)
    as (st2 & Hrun2 & He2).
  { now rewrite (length_top_elemStack st1 es Hs1). }
  change initUnionStack with (elemStack []). rewrite Hrun2. cbn [bind]. rewrite app_nil_r.
  set (st3 := {| stack := elemStack (rev es); popped := popped st2;
                 emptyPops := emptyPops st2 |}).
  destruct (drainTemp_elemStack (rev es) (length (top (elemStack (rev es)))) st3 []
              eq_refl) as (st4 & Hrun4 & He4).
  { cbn [elemStack top]. now rewrite length_map. }
  rewrite Hrun4. cbn [bind app]. rewrite trimSpace_spaced.
  exists st4. split; [reflexivity|]. rewrite He4. cbn [st3 emptyPops]. exact He2.
Qed.

Lemma chemSymbol_tokens symbols : map chemSymbol (tokens symbols) = symbols.
Proof.
  unfold tokens. rewrite map_map. cbn [chemSymbol]. apply map_id.
Qed.

Lemma processFormulaRun_printFormula f :
  properFormula f = true ->
  exists st,
    processFormulaRun (printFormula f) = Normal (joinSpaces (expansion f), st) /\
    emptyPops st = 0%nat.
Proof.
  intros Hf.
  set (st0 := {| stack := initUnionStack; popped := None; emptyPops := 0 |}).
  destruct (scan_printFormula f [] st0 [] (length (printFormula f)) Hf eq_refl
              eq_refl eq_refl) as (fuel' & st1 & Hscan & _ & Hs1 & He1);
    [now rewrite app_nil_r|].
  rewrite !app_nil_r in *. rewrite scan_nil in Hscan.
  destruct (processFormulaRun_after_scan _ st1 _ Hscan Hs1) as (st4 & Hrun & He4).
  exists st4. rewrite Hrun, rev_involutive, chemSymbol_tokens.
  split; [reflexivity|]. now rewrite He4, He1.
Qed.


(** X7: the expander is correct on proper formulas.  For a formula tree
    with proper symbols, multipliers that fit an [int] and groups of at most
    1024 atoms, [processFormula] on its text returns the atoms of the tree
    from left to right, each symbol as often as its multiplier says and each
    group repeated as a whole, with single spaces between them; no pop of
    the run finds a stack empty. *)
Theorem processFormula_expands_proper_formula :
  forall f : Formula,
    properFormula f = true ->
    processFormula (printFormula f) = Returned (joinSpaces (expansion f)) /\
    processFormulaEmptyPops (printFormula f) = 0%nat.
Proof.
  intros f Hf. destruct (processFormulaRun_printFormula f Hf) as (st & Hrun & He).
  unfold processFormula, processFormulaEmptyPops. rewrite Hrun. now split.
Qed.

Lemma processFormula_expands_proper_formula_witness :
  properFormula
    (FSymbol "Ca"%string None
       (FGroup (FSymbol "O"%string None (FSymbol "H"%string None FEnd))
               (Some (list_ascii_of_string "2")) FEnd)) = true /\
  processFormula "Ca(OH)2" = Returned "Ca O H O H".
Proof.
  split; [reflexivity|].
  exact (proj1 (processFormula_expands_proper_formula
    (FSymbol "Ca"%string None
       (FGroup (FSymbol "O"%string None (FSymbol "H"%string None FEnd))
               (Some (list_ascii_of_string "2")) FEnd)) eq_refl)).
Defined.

Lemma processFormulaRun_undefined formula fault st :
  scan (length formula) formula
       {| stack := initUnionStack; popped := None; emptyPops := 0 |} = Undefined fault st ->
  processFormula formula = Faulted fault.
Proof.
  intros Hscan. unfold processFormula, processFormulaRun. now rewrite Hscan.
Qed.

(** X8: a group of more than 1024 atoms overruns [tempArray].  Behind any
    proper formula, a parenthesized proper formula whose expansion has more
    than [MAX_FORMULA_LENGTH] atoms makes the loop of the closing
    parenthesis write past the end of the array, whatever follows. *)
Theorem processFormula_overruns_tempArray :
  forall (f body : Formula) (rest : cstring),
    properFormula f = true ->
    properFormula body = true ->
    (MAX_FORMULA_LENGTH < length (expansion body))%nat ->
    processFormula
      (printFormula f ++ "("%char :: printFormula body ++ ")"%char :: rest)%list
    = Faulted TempArrayOverflow.
Proof.
  intros f body rest Hf Hbody Hover.
  set (st0 := {| stack := initUnionStack; popped := None; emptyPops := 0 |}).
  set (formula := printFormula f ++ "("%char :: printFormula body ++ ")"%char :: rest).
  destruct (scan_printFormula f ("("%char :: printFormula body ++ ")"%char :: rest)
              st0 [] (length formula) Hf eq_refl eq_refl eq_refl)
    as (fuel1 & st1 & Hscan1 & Hf1 & Hs1 & _); [apply le_n|].
  cbn [length] in Hf1. destruct fuel1 as [|fuel1]; [lia|].
  rewrite scan_open in Hscan1.
  destruct (push_elemStack st1 dummy _ Hs1) as [Hs2 _].
  destruct (scan_printFormula body (")"%char :: rest) (push st1 dummy) _ fuel1 Hbody Hs2
              eq_refl eq_refl) as (fuel3 & st3 & Hscan3 & Hf3 & Hs3 & _).
  { rewrite length_app in *. cbn [length] in *. lia. }
  cbn [length] in Hf3. destruct fuel3 as [|fuel3]; [lia|].
  rewrite scan_close in Hscan3.
  assert (Htoks : forallb (fun e => negb (isMarker e)) (rev (tokens (expansion body))) = true).
  { apply forallb_forall. intros e He. apply in_rev in He.
    apply (proj1 (forallb_forall _ _)
             (tokens_not_markers _ (expansion_proper body Hbody))), He. }
  destruct (popGroup_overflows (rev (tokens (expansion body)))
              (length (top (stack st3))) st3 [] dummy _ Hs3 Htoks) as (st4 & Hpop).
  { rewrite (length_top_elemStack st3 _ Hs3), length_app. lia. }
  { cbn. lia. }
  { unfold tokens. rewrite length_rev, length_map. cbn [length]. lia. }
  rewrite Hpop in Hscan3. cbn [bind] in Hscan3.
  apply (processFormulaRun_undefined formula TempArrayOverflow st4).
  exact (eq_trans Hscan1 Hscan3).
Qed.

Lemma processFormula_overruns_tempArray_witness :
  processFormula "Mg(H1025)2" = Faulted TempArrayOverflow.
Proof.
  exact (processFormula_overruns_tempArray
           (FSymbol "Mg"%string None FEnd)
           (FSymbol "H"%string (Some (list_ascii_of_string "1025")) FEnd)
           "2"%string eq_refl eq_refl ltac:(vm_compute; lia)).
Defined.

(** X9: a multiplier above [INT_MAX] overflows.  Behind any proper formula
    and a proper symbol, a run of digits whose decimal value exceeds
    [INT_MAX] makes the multiplier loop overflow its [int]. *)
Theorem processFormula_overflows_multiplier :
  forall (f : Formula) (symbol digits rest : cstring),
    properFormula f = true ->
    properSymbol symbol = true ->
    forallb isdigit digits = true ->
    isdigit (peek rest 0) = false ->
    INT_MAX < decimalValue digits ->
    processFormula (printFormula f ++ symbol ++ digits ++ rest)%list
    = Faulted IntOverflow.
Proof.
  intros f symbol digits rest Hf Hs Hdigits Hrest Hover.
  set (st0 := {| stack := initUnionStack; popped := None; emptyPops := 0 |}).
  set (formula := printFormula f ++ symbol ++ digits ++ rest).
  destruct (properSymbol_head symbol Hs) as (a & tl & Hsym & Ha).
  destruct digits as [|d digits]; [cbn in Hover; unfold INT_MAX in Hover; lia|].
  assert (Hd : isdigit d = true).
  { cbn [forallb] in Hdigits. now apply andb_true_iff in Hdigits as [-> _]. }
  destruct (scan_printFormula f (symbol ++ (d :: digits) ++ rest) st0 []
              (length formula) Hf eq_refl) as (fuel1 & st1 & Hscan1 & Hf1 & Hs1 & _).
  { rewrite Hsym. cbn. now apply isupper_not_islower. }
  { rewrite Hsym. cbn. now apply isupper_not_isdigit. }
  { apply le_n. }
  rewrite length_app, Hsym in Hf1. cbn [length app] in Hf1.
  destruct fuel1 as [|fuel1]; [lia|].
  rewrite scan_symbol in Hscan1;
    [|assumption|cbn; now apply isdigit_not_islower].
  rewrite length_app in Hf1. cbn [length] in Hf1.
  destruct fuel1 as [|fuel1]; [lia|].
  assert (Hread := proj2 (readMultiplier_decimal rest (d :: digits) 0 Hdigits Hrest
                            ltac:(unfold INT_MAX; lia))).
  cbn zeta in Hread. rewrite Z.mul_0_l, Z.add_0_l in Hread. specialize (Hread Hover).
  revert Hscan1 Hread. cbn [app scan]. rewrite (isdigit_not_isalpha d Hd), Hd.
  destruct (readMultiplier 0 (d :: digits ++ rest)) as [[g|] p']; intros Hscan1 Hread;
    [discriminate Hread|].
  exact (processFormulaRun_undefined formula IntOverflow _ Hscan1).
Qed.

Lemma processFormula_overflows_multiplier_witness :
  processFormula "CaH2147483648" = Faulted IntOverflow.
Proof.
  exact (processFormula_overflows_multiplier
           (FSymbol "Ca"%string None FEnd) "H"%string "2147483648"%string []
           eq_refl eq_refl eq_refl eq_refl eq_refl).
Defined.

(** ** formulaExpander.c: the validator on formula trees *)

Lemma isBalancedFrom_printMultiplier m chars rest :
  properMultiplier m = true ->
  isBalancedFrom chars (printMultiplier m ++ rest) = isBalancedFrom chars rest.
Proof.
  destruct m as [digits|]; cbn [properMultiplier printMultiplier]; [|reflexivity].
  intros Hm. apply andb_true_iff in Hm as [Hm _]. apply andb_true_iff in Hm as [_ Hdigits].
  now apply isBalancedFrom_skip_digits.
Qed.

Lemma isBalancedFrom_printFormula f : forall chars rest,
  properFormula f = true ->
  isBalancedFrom chars (printFormula f ++ rest) = isBalancedFrom chars rest.
Proof.
  induction f as [|symbol m more IH|body IHbody m more IH]; intros chars rest Hf;
    cbn [properFormula printFormula] in *; [reflexivity| |].
  - apply andb_true_iff in Hf as [Hf Hmore]. apply andb_true_iff in Hf as [Hs Hm].
    rewrite <- !app_assoc.
    rewrite isBalancedFrom_skip_letters
      by apply (isSymbol_letters _ (properSymbol_isSymbol _ Hs)).
    rewrite isBalancedFrom_printMultiplier by assumption. now apply IH.
  - apply andb_true_iff in Hf as [Hf Hmore]. apply andb_true_iff in Hf as [Hf Hm].
    apply andb_true_iff in Hf as [Hbody _].
    cbn [app isBalancedFrom Ascii.eqb Bool.eqb]. rewrite <- !app_assoc.
    rewrite IHbody by assumption.
    cbn [app isBalancedFrom Ascii.eqb Bool.eqb]. rewrite <- !app_assoc.
    rewrite isBalancedFrom_printMultiplier by assumption. now apply IH.
Qed.

(** X10: the validator accepts the text of every proper formula, and
    rejects it with one more opening parenthesis in front or one more
    closing parenthesis behind. *)
Theorem checkParentheses_on_proper_formula :
  forall f : Formula,
    properFormula f = true ->
    checkParentheses (printFormula f) = true /\
    checkParentheses ("("%char :: printFormula f)%list = false /\
    checkParentheses (printFormula f ++ [")"%char])%list = false.
Proof.
  intros f Hf. rewrite !checkParentheses_isBalanced. unfold isBalanced. repeat split.
  - rewrite <- (app_nil_r (printFormula f)). now rewrite isBalancedFrom_printFormula.
  - cbn [isBalancedFrom Ascii.eqb Bool.eqb].
    rewrite <- (app_nil_r (printFormula f)). now rewrite isBalancedFrom_printFormula.
  - now rewrite isBalancedFrom_printFormula.
Qed.

Lemma checkParentheses_on_proper_formula_witness :
  checkParentheses "Ca(OH)2" = true /\
  checkParentheses "(Ca(OH)2" = false /\
  checkParentheses "Ca(OH)2)" = false.
Proof.
  exact (checkParentheses_on_proper_formula
    (FSymbol "Ca"%string None
       (FGroup (FSymbol "O"%string None (FSymbol "H"%string None FEnd))
               (Some (list_ascii_of_string "2")) FEnd)) eq_refl).
Defined.

(** ** formulaExpander.c: counting the protons of an expansion *)











(** ** formulaExpander.c: reading files line by line *)

Lemma readLine_split room : forall stream,
  fst (readLine room stream) ++ snd (readLine room stream) = stream.
Proof.
  induction room as [|room IH]; intros [|c rest]; try reflexivity.
  cbn [readLine]. destruct (Ascii.eqb c newline); [reflexivity|].
  specialize (IH rest). destruct (readLine room rest) as [line rest'].
  cbn [fst snd app] in *. now rewrite IH.
Qed.

Lemma readLine_consumes room c rest :
  (length (snd (readLine (S room) (c :: rest))) <= length rest)%nat.
Proof.
  cbn [readLine]. destruct (Ascii.eqb c newline); [cbn; lia|].
  pose proof (readLine_split room rest) as Hsplit.
  destruct (readLine room rest) as [line rest']. cbn [fst snd] in *.
  rewrite <- Hsplit, length_app. lia.
Qed.

(** Any bound at least the length of the file gives the same buffers. *)
Lemma fgetsAll_enough size fuel1 : forall fuel2 stream,
  (2 <= size)%nat -> (length stream <= fuel1)%nat -> (length stream <= fuel2)%nat ->
  fgetsAll fuel1 size stream = fgetsAll fuel2 size stream.
Proof.
  induction fuel1 as [|fuel1 IH]; intros fuel2 stream Hsize H1 H2.
  - destruct stream; [now destruct fuel2|cbn in H1; lia].
  - destruct stream as [|c rest]; [now destruct fuel2|].
    destruct fuel2 as [|fuel2]; [cbn in H2; lia|].
    cbn [fgetsAll fgets].
    destruct size as [|[|room]]; try lia.
    cbn [Nat.sub]. rewrite ?Nat.sub_0_r.
    pose proof (readLine_consumes room c rest) as Hlen.
    destruct (readLine (S room) (c :: rest)) as [line rest'] eqn:Hread.
    cbn [snd] in Hlen. f_equal. cbn [length] in H1, H2. apply IH; lia.
Qed.

(** Nothing of the file is lost between the buffers. *)
Lemma concat_fgetsAll size fuel : forall stream,
  (2 <= size)%nat -> (length stream <= fuel)%nat -> concat (fgetsAll fuel size stream) = stream.
Proof.
  induction fuel as [|fuel IH]; intros stream Hsize Hfuel.
  - destruct stream; [reflexivity|cbn in Hfuel; lia].
  - destruct stream as [|c rest]; [reflexivity|].
    cbn [fgetsAll fgets].
    destruct size as [|[|room]]; try lia.
    cbn [Nat.sub]. rewrite ?Nat.sub_0_r.
    pose proof (readLine_consumes room c rest) as Hlen.
    pose proof (readLine_split (S room) (c :: rest)) as Hsplit.
    destruct (readLine (S room) (c :: rest)) as [line rest'] eqn:Hread.
    cbn [fst snd] in *. cbn [concat]. rewrite IH; [exact Hsplit|lia|].
    cbn [length] in Hfuel. lia.
Qed.

Lemma readLine_line line : forall room rest,
  forallb (fun c => negb (Ascii.eqb c newline)) line = true ->
  (length line < room)%nat ->
  readLine room (line ++ newline :: rest) = (line ++ [newline], rest).
Proof.
  induction line as [|c line IH]; intros room rest Hline Hroom.
  - destruct room; [lia|]. reflexivity.
  - destruct room; [cbn in Hroom; lia|].
    cbn [forallb] in Hline. apply andb_true_iff in Hline as [Hc Hline].
    apply negb_true_iff in Hc. cbn [app readLine]. rewrite Hc.
    rewrite IH; [reflexivity|assumption|cbn in Hroom; lia].
Qed.

Lemma readLine_full a : forall rest,
  forallb (fun c => negb (Ascii.eqb c newline)) a = true ->
  readLine (length a) (a ++ rest) = (a, rest).
Proof.
  induction a as [|c a IH]; intros rest Ha.
  - now destruct rest.
  - cbn [forallb] in Ha. apply andb_true_iff in Ha as [Hc Ha].
    apply negb_true_iff in Hc. cbn [length app readLine]. rewrite Hc.
    now rewrite IH.
Qed.

Lemma readLines_cons line rest :
  forallb (fun c => negb (Ascii.eqb c newline)) line = true ->
  (length line <= MAX_FORMULA_LENGTH - 2)%nat ->
  readLines (line ++ newline :: rest) = (line ++ [newline]) :: readLines rest.
Proof.
  intros Hline Hlen. unfold readLines.
  destruct (line ++ newline :: rest) as [|c stream] eqn:Hstream;
    [now destruct line|].
  cbn [length fgetsAll fgets]. rewrite <- Hstream.
  rewrite readLine_line by (assumption || (unfold MAX_FORMULA_LENGTH in *; cbn; lia)).
  f_equal. apply fgetsAll_enough; [unfold MAX_FORMULA_LENGTH; lia| |apply le_n].
  apply (f_equal (@length ascii)) in Hstream. rewrite length_app in Hstream.
  cbn [length] in Hstream. lia.
Qed.

(** The buffers of a text file with short lines are its lines. *)
Lemma readLines_textFile lines : forall rest,
  forallb shortLine lines = true ->
  readLines (textFile lines ++ rest) =
  map (fun line => line ++ [newline]) lines ++ readLines rest.
Proof.
  unfold textFile. induction lines as [|line lines IH]; intros rest Hlines; [reflexivity|].
  cbn [forallb] in Hlines. apply andb_true_iff in Hlines as [Hline Hlines].
  unfold shortLine in Hline. apply andb_true_iff in Hline as [Hnl Hlen].
  apply Nat.leb_le in Hlen.
  cbn [map concat app]. rewrite <- !app_assoc. cbn [app].
  rewrite readLines_cons by assumption. now rewrite IH.
Qed.

Lemma stripNewline_line line : stripNewline (line ++ [newline]) = line.
Proof. unfold stripNewline. now rewrite last_last, removelast_last. Qed.




Lemma readLines_open last :
  openLine last = true ->
  readLines last = match last with [] => [] | _ :: _ => [last] end.
Proof.
  unfold openLine. intros Hlast. apply andb_true_iff in Hlast as [Hnl Hlen].
  apply Nat.leb_le in Hlen. destruct last as [|c rest]; [reflexivity|].
  unfold readLines. cbn [length fgetsAll fgets].
  assert (Hread : readLine (MAX_FORMULA_LENGTH - 1) (c :: rest) = (c :: rest, [])).
  { clear - Hnl Hlen. revert Hlen. generalize (MAX_FORMULA_LENGTH - 1)%nat.
    induction (c :: rest) as [|x l IH]; intros room Hlen; [now destruct room|].
    destruct room; [cbn in Hlen; lia|].
    cbn [forallb] in Hnl. apply andb_true_iff in Hnl as [Hx Hnl].
    apply negb_true_iff in Hx. cbn [readLine]. rewrite Hx.
    rewrite IH; [reflexivity|assumption|cbn in Hlen; lia]. }
  rewrite Hread. now destruct (length rest).
Qed.

Lemma readLines_full a rest :
  forallb (fun c => negb (Ascii.eqb c newline)) a = true ->
  length a = (MAX_FORMULA_LENGTH - 1)%nat ->
  readLines (a ++ rest) = a :: readLines rest.
Proof.
  intros Ha Hlen. unfold readLines.
  destruct (a ++ rest) as [|c stream] eqn:Hstream;
    [destruct a; [discriminate Hlen|discriminate Hstream]|].
  cbn [length fgetsAll fgets]. rewrite <- Hstream, <- Hlen, readLine_full by assumption.
  f_equal. apply fgetsAll_enough; [unfold MAX_FORMULA_LENGTH; lia| |apply le_n].
  apply (f_equal (@length ascii)) in Hstream. rewrite length_app, Hlen in Hstream.
  cbn in Hstream. lia.
Qed.

Lemma rejectedFrom_cons k formula formulas :
  rejectedFrom k (formula :: formulas) =
  (if checkParentheses formula then [] else [Z.of_nat (S k)])
    ++ rejectedFrom (S k) formulas.
Proof.
  unfold rejectedFrom. cbn [length]. rewrite <- cons_seq, map_cons.
  set (tail := map Z.of_nat (seq (S (S k)) (length formulas))).
  assert (Htail :
    filter (fun i => negb (checkParentheses
              (nth (Z.to_nat i - 1 - k) (formula :: formulas) []))) tail =
    filter (fun i => negb (checkParentheses
              (nth (Z.to_nat i - 1 - S k) formulas []))) tail).
  { apply filter_ext_in. intros i Hi. apply in_map_iff in Hi as (j & <- & Hj).
    apply in_seq in Hj. rewrite Nat2Z.id.
    replace (j - 1 - k)%nat with (S (j - 1 - S k)) by lia. reflexivity. }
  cbn [filter]. rewrite Htail, Nat2Z.id.
  replace (S k - 1 - k)%nat with 0%nat by lia. cbn [nth].
  now destruct (checkParentheses formula).
Qed.

(** The loop of the validator: the answer is the conjunction over the
    buffers, and the messages name the rejected ones by their number. *)
Lemma validateLines_spec chunks : forall k overallValid,
  validateLines (Z.of_nat k) chunks overallValid =
  (overallValid && forallb checkParentheses (map stripNewline chunks),
   map notBalancedMessage (rejectedFrom k (map stripNewline chunks))).
Proof.
  induction chunks as [|chunk chunks IH]; intros k v.
  - cbn. now rewrite andb_true_r.
  - cbn [validateLines map forallb]. rewrite rejectedFrom_cons.
    replace (Z.of_nat k + 1) with (Z.of_nat (S k)) by lia.
    destruct (checkParentheses (stripNewline chunk)); cbn [negb app].
    + rewrite IH. now rewrite andb_true_l.
    + rewrite IH. cbn [andb map]. now rewrite andb_false_r.
Qed.

Lemma rejectedFrom_0 formulas : rejectedFrom 0 formulas = rejectedLines formulas.
Proof.
  unfold rejectedFrom, rejectedLines. apply filter_ext. intros i.
  now rewrite Nat.sub_0_r.
Qed.

Lemma stripNewline_open last c rest :
  last = c :: rest -> openLine last = true -> stripNewline last = last.
Proof.
  unfold openLine, stripNewline. intros Hlast Hopen.
  apply andb_true_iff in Hopen as [Hnl _].
  assert (Hin : In (List.last last NUL) last) by (apply last_In; now rewrite Hlast).
  apply (proj1 (forallb_forall _ _) Hnl) in Hin. apply negb_true_iff in Hin.
  now rewrite Hin.
Qed.

Lemma readLines_file lines last :
  forallb shortLine lines = true -> openLine last = true ->
  map stripNewline (readLines (textFile lines ++ last)) = fileFormulas lines last.
Proof.
  intros Hlines Hlast. rewrite readLines_textFile by assumption.
  rewrite readLines_open by assumption. unfold fileFormulas. rewrite map_app. f_equal.
  - rewrite map_map. erewrite map_ext; [apply map_id|]. intros line. apply stripNewline_line.
  - destruct last as [|c rest] eqn:Hl; [reflexivity|]. cbn [map].
    now rewrite (stripNewline_open (c :: rest) c rest eq_refl Hlast).
Qed.

(** X12: [validateParentheses] on a text file of lines of at most 1022
    characters, the last of which need not be closed by a newline: the
    answer is true exactly when [checkParentheses] accepts every line, and
    one message is printed for every rejected line, in order, with the
    number of the line counted from 1. *)
Theorem validateParentheses_checks_every_line :
  forall (fs : FileSystem) (inputFile : cstring) (lines : list cstring) (last : cstring),
    fs inputFile = Some (textFile lines ++ last)%list ->
    noNul (textFile lines ++ last) = true ->
    forallb shortLine lines = true ->
    openLine last = true ->
    validateParentheses fs inputFile =
    (forallb checkParentheses (fileFormulas lines last),
     map notBalancedMessage (rejectedLines (fileFormulas lines last))).
Proof.
  intros fs inputFile lines last Hfile _ Hlines Hlast.
  unfold validateParentheses. rewrite Hfile.
  rewrite (validateLines_spec _ 0 true), readLines_file by assumption.
  now rewrite rejectedFrom_0.
Qed.

Lemma validateParentheses_checks_every_line_witness :
  validateParentheses
    (fun _ => Some (textFile [list_ascii_of_string "H2(O";
                              list_ascii_of_string "Ca(OH)2"] ++ ")("%string)%list) [] =
  (false, [notBalancedMessage 1; notBalancedMessage 3]).
Proof.
  exact (validateParentheses_checks_every_line
           (fun _ => Some (textFile [list_ascii_of_string "H2(O";
                                     list_ascii_of_string "Ca(OH)2"] ++ ")("%string)%list)
           [] [list_ascii_of_string "H2(O"; list_ascii_of_string "Ca(OH)2"]
           ")("%string eq_refl eq_refl eq_refl eq_refl).
Defined.

(** X13: a line longer than the buffer is checked in pieces.  A line of
    an opening parenthesis, 1022 characters that are neither parentheses
    nor newlines nor NUL, and a closing parenthesis is balanced, yet the validator
    reads it as two lines and rejects both. *)
Theorem validateParentheses_splits_long_line :
  forall (fs : FileSystem) (inputFile : cstring) (w : cstring),
    fs inputFile = Some ("("%char :: w ++ [")"%char; newline])%list ->
    length w = (MAX_FORMULA_LENGTH - 2)%nat ->
    noNul w = true ->
    forallb (fun c => negb (Ascii.eqb c "(") && negb (Ascii.eqb c ")")
                      && negb (Ascii.eqb c newline)) w = true ->
    checkParentheses ("("%char :: w ++ [")"%char])%list = true /\
    validateParentheses fs inputFile =
    (false, [notBalancedMessage 1; notBalancedMessage 2]).
Proof.
  intros fs inputFile w Hfile Hlen _ Hw.
  assert (Hplain : forall c, In c w -> Ascii.eqb c "(" = false /\ Ascii.eqb c ")" = false).
  { intros c Hc. apply (proj1 (forallb_forall _ _) Hw) in Hc.
    apply andb_true_iff in Hc as [Hc _]. apply andb_true_iff in Hc as [H1 H2].
    now apply negb_true_iff in H1, H2. }
  assert (Hnl : forallb (fun c => negb (Ascii.eqb c newline)) ("("%char :: w) = true).
  { cbn [forallb]. apply forallb_forall. intros c Hc.
    apply (proj1 (forallb_forall _ _) Hw) in Hc. now apply andb_true_iff in Hc as [_ Hc]. }
  split.
  - rewrite checkParentheses_isBalanced. unfold isBalanced.
    cbn [isBalancedFrom Ascii.eqb Bool.eqb]. now rewrite isBalancedFrom_skip.
  - unfold validateParentheses. rewrite Hfile.
    change ("("%char :: w ++ [")"%char; newline])
      with (("("%char :: w) ++ [")"%char; newline]).
    rewrite readLines_full; [|assumption|cbn [length]; rewrite Hlen; reflexivity].
    change (readLines [")"%char; newline]) with [[")"%char; newline]].
    rewrite (validateLines_spec _ 0 true). cbn [map].
    assert (Hfirst : checkParentheses (stripNewline ("("%char :: w)) = false).
    { unfold stripNewline.
      replace (Ascii.eqb (List.last ("("%char :: w) NUL) newline) with false.
      - rewrite checkParentheses_isBalanced. unfold isBalanced.
        cbn [isBalancedFrom Ascii.eqb Bool.eqb].
        rewrite <- (app_nil_r w). now rewrite isBalancedFrom_skip.
      - symmetry. apply negb_true_iff.
        apply (proj1 (forallb_forall _ _) Hnl). apply last_In. discriminate. }
    cbn [forallb]. rewrite !rejectedFrom_cons, !Hfirst. reflexivity.
Qed.

(** ** formulaExpander.c: expanding and counting whole files *)

Lemma strcmp0_refl a : strcmp0 a a = true.
Proof. now apply strcmp0_eq. Qed.












(** X15: the edge cases of [formulaProcessor].  When the input file cannot
    be opened, nothing is written and no output file is made; when one file
    is given as input and as output, it is emptied before it is read and
    stays empty. *)
Theorem formulaProcessor_missing_or_same_file :
  forall (fs : FileSystem) (inputFile outputFile content : cstring),
    (fs inputFile = None -> formulaProcessor fs inputFile outputFile = Files fs) /\
    (fs inputFile = Some content ->
     exists fs', formulaProcessor fs inputFile inputFile = Files fs' /\
                 fs' inputFile = Some [] /\
                 forall name, strcmp0 name inputFile = false -> fs' name = fs name).
Proof.
  intros fs inputFile outputFile content. split; intros Hfile; unfold formulaProcessor;
    rewrite Hfile; [reflexivity|].
  assert (Hopened : writeFile fs inputFile [] inputFile = Some [])
    by (unfold writeFile; now rewrite strcmp0_refl).
  cbn zeta. rewrite Hopened. cbn [readLines length fgetsAll expandLines].
  eexists. split; [reflexivity|]. split.
  - unfold writeFile. now rewrite strcmp0_refl.
  - intros name Hname. unfold writeFile. now rewrite Hname.
Qed.










(** *** Instances of the theorems on files *)

Lemma validateParentheses_splits_long_line_witness :
  checkParentheses ("("%char :: repeat "H"%char 1022 ++ [")"%char])%list = true /\
  validateParentheses
    (oneFile "in.txt"%string ("("%char :: repeat "H"%char 1022 ++ [")"%char; newline]))
    "in.txt"%string
  = (false, [notBalancedMessage 1; notBalancedMessage 2]).
Proof.
  exact (validateParentheses_splits_long_line
           (oneFile "in.txt"%string
                    ("("%char :: repeat "H"%char 1022 ++ [")"%char; newline]))
           "in.txt"%string (repeat "H"%char 1022)
           eq_refl ltac:(vm_compute; reflexivity) ltac:(vm_compute; reflexivity)
           ltac:(vm_compute; reflexivity)).
Defined.


Lemma formulaProcessor_missing_or_same_file_witness :
  formulaProcessor (oneFile "in.txt"%string "H2O"%string) "no.txt"%string "out.txt"%string
  = Files (oneFile "in.txt"%string "H2O"%string) /\
  exists fs',
    formulaProcessor (oneFile "in.txt"%string "H2O"%string) "in.txt"%string "in.txt"%string
    = Files fs' /\
    fs' (list_ascii_of_string "in.txt") = Some [].
Proof.
  split.
  - exact (proj1 (formulaProcessor_missing_or_same_file
                    (oneFile "in.txt"%string "H2O"%string)
                    "no.txt"%string "out.txt"%string []) eq_refl).
  - destruct (proj2 (formulaProcessor_missing_or_same_file
                       (oneFile "in.txt"%string "H2O"%string)
                       "in.txt"%string "out.txt"%string "H2O"%string) eq_refl)
      as (fs' & Hrun & Hempty & _).
    exists fs'. split; [exact Hrun|exact Hempty].
Defined.



(** ** Loading the table *)

Lemma isdigit_not_isspace c : isdigit c = true -> isspace c = false.
Proof. unfold isdigit, isspace. lia. Qed.

Lemma isspace_not_isdigit c : isspace c = true -> isdigit c = false.
Proof. unfold isdigit, isspace. lia. Qed.

Lemma isdigit_not_sign c :
  isdigit c = true -> Ascii.eqb c "-" = false /\ Ascii.eqb c "+" = false.
Proof.
  intros H. split.
  - destruct (Ascii.eqb_spec c "-") as [->|]; [discriminate H|reflexivity].
  - destruct (Ascii.eqb_spec c "+") as [->|]; [discriminate H|reflexivity].
Qed.

Lemma skipSpace_app lead stream :
  forallb isspace lead = true -> skipSpace (lead ++ stream) = skipSpace stream.
Proof.
  induction lead as [|c lead IH]; [reflexivity|]. cbn [forallb app skipSpace].
  intros H. apply andb_true_iff in H as [Hc Hlead]. rewrite Hc. now apply IH.
Qed.

Lemma skipSpace_head stream :
  isspace (peek stream 0) = false -> skipSpace stream = stream.
Proof. destruct stream as [|c rest]; [reflexivity|]. cbn. now intros ->. Qed.

Lemma skipSpace_length stream : (length (skipSpace stream) <= length stream)%nat.
Proof.
  induction stream as [|c rest IH]; [apply le_n|]. cbn [skipSpace].
  destruct (isspace c); cbn [length]; lia.
Qed.

Lemma scanWord_word width word stream :
  (length word <= width)%nat ->
  forallb (fun c => negb (isspace c)) word = true ->
  length word = width \/ isspace (peek stream 0) = true \/ stream = [] ->
  scanWord width (word ++ stream) = (word, stream).
Proof.
  revert word. induction width as [|width IH]; intros word Hlen Hword Hend.
  - destruct word; [|cbn in Hlen; lia]. reflexivity.
  - destruct word as [|c word].
    + destruct Hend as [Hend|[Hend| ->]]; [discriminate Hend| |reflexivity].
      destruct stream as [|c rest]; [reflexivity|]. cbn in Hend |- *. now rewrite Hend.
    + cbn [forallb] in Hword. apply andb_true_iff in Hword as [Hc Hword].
      apply negb_true_iff in Hc. cbn [app scanWord]. rewrite Hc.
      rewrite IH; [reflexivity|cbn in Hlen; lia|assumption|].
      destruct Hend as [Hend|Hend]; [left; cbn in Hend; lia|now right].
Qed.

Lemma scanWord_length width stream :
  (length (fst (scanWord width stream)) + length (snd (scanWord width stream))
   = length stream)%nat /\ (length (fst (scanWord width stream)) <= width)%nat.
Proof.
  revert stream. induction width as [|width IH]; intros stream; [cbn; lia|].
  destruct stream as [|c rest]; [cbn; lia|]. cbn [scanWord].
  destruct (isspace c); [cbn; lia|].
  specialize (IH rest). destruct (scanWord width rest) as [word rest']. cbn in *. lia.
Qed.

Lemma scanDigits_digits digits stream :
  forallb isdigit digits = true ->
  isdigit (peek stream 0) = false ->
  scanDigits (digits ++ stream) = (digits, stream).
Proof.
  intros Hdigits Hend. induction digits as [|c digits IH].
  - destruct stream as [|c rest]; [reflexivity|]. cbn in Hend |- *. now rewrite Hend.
  - cbn [forallb] in Hdigits. apply andb_true_iff in Hdigits as [Hc Hdigits].
    cbn [app scanDigits]. now rewrite Hc, IH.
Qed.

Lemma scanDigits_length stream :
  (length (fst (scanDigits stream)) + length (snd (scanDigits stream)) = length stream)%nat.
Proof.
  induction stream as [|c rest IH]; [reflexivity|]. cbn [scanDigits].
  destruct (isdigit c); [|cbn; lia].
  destruct (scanDigits rest) as [digits rest']. cbn in *. lia.
Qed.

Lemma scanSign_length stream : (length (snd (scanSign stream)) <= length stream)%nat.
Proof.
  destruct stream as [|c rest]; [apply le_n|]. unfold scanSign.
  destruct (Ascii.eqb c "-"); [cbn; lia|]. destruct (Ascii.eqb c "+"); cbn; lia.
Qed.

(** White space before a symbol is skipped. *)
Lemma fscanf_skip lead stream :
  forallb isspace lead = true -> fscanf (lead ++ stream) = fscanf stream.
Proof. intros H. unfold fscanf. now rewrite skipSpace_app. Qed.

(** A call that stores both values has read a symbol of one to three
    characters and a number in the range of [int], and has moved on. *)
Lemma fscanf_both stream symbol atomicNumber rest :
  fscanf stream = Both symbol atomicNumber rest ->
  (1 <= length symbol <= 3)%nat /\ INT_MIN <= atomicNumber <= INT_MAX /\
  (length rest < length stream)%nat.
Proof.
  unfold fscanf. pose proof (skipSpace_length stream) as Hskip.
  pose proof (scanWord_length 3 (skipSpace stream)) as [Hsum Hword].
  destruct (scanWord 3 (skipSpace stream)) as [word rest1]. cbn [fst snd] in Hsum, Hword.
  destruct word as [|c word]; [discriminate|].
  pose proof (skipSpace_length rest1) as Hskip1.
  pose proof (skipSpace_length (skipSpace rest1)) as Hskip2.
  pose proof (scanSign_length (skipSpace (skipSpace rest1))) as Hsign.
  destruct (scanSign (skipSpace (skipSpace rest1))) as [negative rest2]. cbn [snd] in Hsign.
  pose proof (scanDigits_length rest2) as Hdigits.
  destruct (scanDigits rest2) as [digits rest3]. cbn [fst snd] in Hdigits.
  destruct digits as [|d digits]; [discriminate|].
  destruct (_ && _) eqn:Hrange; [|discriminate].
  apply andb_true_iff in Hrange as [Hmin Hmax]. apply Z.leb_le in Hmin, Hmax.
  intros [= <- <- <-]. cbn [length] in Hsum, Hword, Hdigits |- *.
  split; [lia|]. split; [split; assumption|lia].
Qed.

(** One proper entry is read as its element, whatever white space stands
    before it, when no digit follows it. *)
Lemma fscanf_entry lead entry stream :
  forallb isspace lead = true ->
  properEntry entry = true ->
  isdigit (peek (entryEnd entry ++ stream) 0) = false ->
  fscanf (lead ++ printEntry entry ++ stream) =
  Both (entrySymbol entry) (decimalValue (entryDigits entry)) (entryEnd entry ++ stream).
Proof.
  intros Hlead Hentry Hnext. rewrite fscanf_skip by assumption.
  unfold properEntry in Hentry. repeat (apply andb_true_iff in Hentry as [Hentry ?]).
  destruct entry as [symbol gap digits ending]. unfold printEntry. cbn [entrySymbol entryGap
    entryDigits entryEnd] in *.
  destruct symbol as [|a symbol]; [discriminate|].
  destruct gap as [|g gap]; [discriminate|].
  destruct digits as [|d digits]; [discriminate|].
  match goal with H : forallb (fun c => negb (isspace c)) _ = true |- _ =>
    pose proof H as Hsymbol end.
  match goal with H : forallb isspace (g :: gap) = true |- _ => pose proof H as Hgap end.
  match goal with H : forallb isdigit (d :: digits) = true |- _ => pose proof H as Hdigits end.
  cbn [forallb] in Hsymbol, Hgap, Hdigits.
  apply andb_true_iff in Hsymbol as [Ha Hsymbol'], Hgap as [Hg Hgap'], Hdigits as [Hd Hdigits'].
  apply negb_true_iff in Ha.
  unfold fscanf. rewrite skipSpace_head by (cbn; exact Ha).
  rewrite <- !app_assoc.
  rewrite scanWord_word;
    [|now apply Nat.leb_le|assumption|right; left; cbn; exact Hg].
  rewrite skipSpace_app by assumption.
  rewrite !(skipSpace_head ((d :: digits) ++ ending ++ stream))
    by (cbn; now apply isdigit_not_isspace).
  destruct (isdigit_not_sign d Hd) as [Hminus Hplus].
  cbn [app scanSign]. rewrite Hminus, Hplus.
  change (d :: digits ++ ending ++ stream) with ((d :: digits) ++ ending ++ stream).
  rewrite scanDigits_digits by assumption.
  pose proof (decimalValue_nonneg (d :: digits)) as Hpos.
  match goal with H : (decimalValue _ <=? INT_MAX) = true |- _ => apply Z.leb_le in H end.
  replace ((INT_MIN <=? decimalValue (d :: digits)) && (decimalValue (d :: digits) <=? INT_MAX))
    with true; [reflexivity|].
  symmetry. apply andb_true_iff. unfold INT_MIN, INT_MAX in *.
  split; [apply Z.leb_le|apply Z.leb_le]; [|assumption].
  assert (0 <= decimalValue (d :: digits)) by (apply Hpos; cbn [forallb]; now rewrite Hd). lia.
Qed.

Lemma peek_after_space ending stream :
  forallb isspace ending = true ->
  isdigit (peek stream 0) = false ->
  isdigit (peek (ending ++ stream) 0) = false.
Proof.
  destruct ending as [|c ending]; [easy|]. cbn [forallb app]. intros H _.
  apply andb_true_iff in H as [Hc _]. cbn. now apply isspace_not_isdigit.
Qed.

Lemma properEntry_head entry stream :
  properEntry entry = true -> isdigit (peek (printEntry entry ++ stream) 0) = false.
Proof.
  unfold properEntry. intros H. repeat (apply andb_true_iff in H as [H ?]).
  destruct entry as [[|a symbol] gap digits ending]; [discriminate|].
  cbn in *. now apply negb_true_iff.
Qed.

Lemma tableFile_head entries stream :
  forallb properEntry entries = true ->
  isdigit (peek stream 0) = false ->
  isdigit (peek (tableFile entries ++ stream) 0) = false.
Proof.
  destruct entries as [|entry entries]; [easy|]. cbn [forallb]. intros H _.
  apply andb_true_iff in H as [Hentry _].
  unfold tableFile. cbn [map concat]. rewrite <- app_assoc. now apply properEntry_head.
Qed.

Lemma properEntry_symbol entry :
  properEntry entry = true ->
  (1 <= length (entrySymbol entry) <= 3)%nat.
Proof.
  unfold properEntry. intros H. repeat (apply andb_true_iff in H as [H ?]).
  apply negb_true_iff, Nat.eqb_neq in H.
  match goal with H : (_ <=? 3)%nat = true |- _ => apply Nat.leb_le in H end. lia.
Qed.

(** The loop on a stream of proper entries: each is stored in the next
    cell, until the array of [MAX_ELEMENTS] is full or a call of [fscanf]
    stores fewer than two values. *)
Lemma loadLoop_entries entries :
  forall lead tail fuel pre post,
    forallb properEntry entries = true ->
    forallb isspace lead = true ->
    isdigit (peek tail 0) = false ->
    (length pre + length entries <= MAX_ELEMENTS)%nat ->
    (length entries <= length post)%nat ->
    (length pre + length entries = MAX_ELEMENTS)%nat \/ fscanf tail = Fewer ->
    (length (lead ++ tableFile entries ++ tail) < fuel)%nat ->
    loadLoop fuel (lead ++ tableFile entries ++ tail) (Z.of_nat (length pre)) (pre ++ post) =
    LoadReturned (Z.of_nat (length pre + length entries))
                 (pre ++ map entryElement entries ++ skipn (length entries) post).
Proof.
  induction entries as [|entry entries IH];
    intros lead tail fuel pre post Hentries Hlead Htail Hmax Hpost Hend Hfuel;
    (destruct fuel as [|fuel]; [lia|]); cbn [loadLoop].
  - cbn [length map app skipn tableFile concat] in *. rewrite Nat.add_0_r in *.
    destruct (Z.ltb_spec (Z.of_nat (length pre)) (Z.of_nat MAX_ELEMENTS)) as [Hlt|Hge];
      [|reflexivity].
    destruct Hend as [Hend|Hend]; [lia|]. now rewrite fscanf_skip, Hend.
  - cbn [forallb] in Hentries. apply andb_true_iff in Hentries as [Hentry Hentries].
    cbn [length] in Hmax, Hpost.
    destruct (Z.ltb_spec (Z.of_nat (length pre)) (Z.of_nat MAX_ELEMENTS)) as [Hlt|Hge];
      [|lia].
    change (tableFile (entry :: entries)) with (printEntry entry ++ tableFile entries)
      in Hfuel |- *.
    rewrite <- !app_assoc in Hfuel |- *.
    pose proof (properEntry_symbol entry Hentry) as Hsymbol.
    assert (Hboundary : forallb isspace (entryEnd entry) = true).
    { unfold properEntry in Hentry. now apply andb_true_iff in Hentry as [_ Hentry]. }
    rewrite fscanf_entry;
      [|assumption|assumption|apply peek_after_space; [assumption|now apply tableFile_head]].
    replace (3 <? length (entrySymbol entry))%nat with false
      by (symmetry; apply Nat.ltb_ge; lia).
    rewrite Nat2Z.id. destruct post as [|x post]; [cbn in Hpost; lia|].
    rewrite <- (Nat.add_0_r (length pre)) at 1. rewrite nth_error_after. cbn [nth_error].
    rewrite setNth_app, firstn_all2 by lia.
    replace (Z.of_nat (length pre) + 1) with (Z.of_nat (length (pre ++ [entryElement entry])))
      by (rewrite length_app; cbn [length]; lia).
    fold (entryElement entry).
    replace (pre ++ entryElement entry :: post)
      with ((pre ++ [entryElement entry]) ++ post) by now rewrite <- app_assoc.
    rewrite (IH (entryEnd entry) tail fuel (pre ++ [entryElement entry]) post);
      try assumption.
    + rewrite length_app. cbn [length map skipn app]. rewrite <- !app_assoc.
      cbn [app]. do 2 f_equal. lia.
    + rewrite length_app. cbn [length]. lia.
    + cbn [length] in Hpost. lia.
    + rewrite length_app. cbn [length] in Hend |- *.
      destruct Hend as [Hend|Hend]; [left; lia|now right].
    + unfold printEntry in Hfuel. repeat rewrite length_app in Hfuel.
      rewrite !length_app. lia.
Qed.

(** The loop ends: every turn that goes on has taken a character. *)
Lemma loadLoop_finishes fuel :
  forall stream index elements,
    (length stream < fuel)%nat -> loadLoop fuel stream index elements <> LoadUnfinished.
Proof.
  induction fuel as [|fuel IH]; intros stream index elements Hfuel; [lia|].
  cbn [loadLoop]. destruct (index <? Z.of_nat MAX_ELEMENTS); [|discriminate].
  destruct (fscanf stream) as [symbol atomicNumber rest| |] eqn:Hscan; try discriminate.
  apply fscanf_both in Hscan as (_ & _ & Hrest).
  destruct (3 <? length symbol)%nat; [apply IH; lia|].
  destruct (nth_error elements (Z.to_nat index)); [apply IH; lia|discriminate].
Qed.

Lemma loadPeriodicTable_finishes fs filename elements :
  loadPeriodicTable fs filename elements <> LoadUnfinished.
Proof.
  unfold loadPeriodicTable. destruct (fs filename) as [content|]; [|discriminate].
  apply loadLoop_finishes. lia.
Qed.

Lemma tableFile_app entries1 entries2 :
  tableFile (entries1 ++ entries2) = tableFile entries1 ++ tableFile entries2.
Proof. unfold tableFile. now rewrite map_app, concat_app. Qed.

(** The load of a file of proper entries. *)
Lemma loadPeriodicTable_entries :
  forall (fs : FileSystem) (filename : cstring) (entries : list TableEntry)
         (elements : list Element),
    fs filename = Some (tableFile entries) ->
    forallb properEntry entries = true ->
    (MAX_ELEMENTS <= length elements)%nat ->
    let loaded := firstn MAX_ELEMENTS entries in
    loadPeriodicTable fs filename elements =
    LoadReturned (Z.of_nat (length loaded))
                 (map entryElement loaded ++ skipn (length loaded) elements).
Proof.
  intros fs filename entries elements Hfile Hentries Hroom loaded.
  unfold loadPeriodicTable. rewrite Hfile.
  rewrite <- (firstn_skipn MAX_ELEMENTS entries) in Hentries |- * at 1 2.
  fold loaded in Hentries |- *. rewrite forallb_app in Hentries.
  apply andb_true_iff in Hentries as [Hloaded Hrest].
  rewrite tableFile_app.
  assert (Hlen : (length loaded <= MAX_ELEMENTS)%nat) by apply firstn_le_length.
  pose proof (loadLoop_entries loaded [] (tableFile (skipn MAX_ELEMENTS entries))
                (S (length (tableFile loaded ++ tableFile (skipn MAX_ELEMENTS entries))))
                [] elements Hloaded eq_refl) as Hloop.
  cbn [app length Nat.add Z.of_nat] in Hloop. apply Hloop; try lia.
  - apply (tableFile_head _ []) in Hrest; [|reflexivity]. now rewrite app_nil_r in Hrest.
  - destruct (Nat.le_gt_cases MAX_ELEMENTS (length entries)) as [Hmany|Hfew].
    + left. unfold loaded. rewrite length_firstn. lia.
    + right. rewrite skipn_all2 by lia. reflexivity.
Qed.






(** X20: the branch of the loop for a symbol longer than three characters
    (lines 31-34) is never taken: whenever [fscanf] stores both values, the
    symbol has one to three characters, which the copy into the array
    keeps as they are, the number is in the range of [int], and the file
    has been read further. *)
Theorem loadPeriodicTable_never_sees_long_symbol :
  forall (stream symbol : cstring) (atomicNumber : Z) (rest : cstring),
    fscanf stream = Both symbol atomicNumber rest ->
    (3 <? length symbol)%nat = false /\ firstn 3 symbol = symbol /\
    symbol <> [] /\ INT_MIN <= atomicNumber <= INT_MAX /\
    (length rest < length stream)%nat.
Proof.
  intros stream symbol atomicNumber rest Hscan.
  apply fscanf_both in Hscan as (Hsymbol & Hrange & Hrest).
  split; [apply Nat.ltb_ge; lia|]. split; [apply firstn_all2; lia|].
  split; [destruct symbol; [cbn in Hsymbol; lia|discriminate]|]. now split.
Qed.

Lemma loadPeriodicTable_never_sees_long_symbol_witness :
  (3 <? length (list_ascii_of_string "Uun"))%nat = false /\
  firstn 3 (list_ascii_of_string "Uun") = list_ascii_of_string "Uun" /\
  list_ascii_of_string "Uun" <> [] /\ INT_MIN <= -7 <= INT_MAX /\
  (length (list_ascii_of_string "o 119") < length (list_ascii_of_string " Uun-7o 119"))%nat.
Proof.
  exact (loadPeriodicTable_never_sees_long_symbol
           (list_ascii_of_string " Uun-7o 119") (list_ascii_of_string "Uun") (-7)
           (list_ascii_of_string "o 119") eq_refl).
Defined.


(** ** The program *)



(** The validator on a file of lines that fit the buffer. *)
Lemma validateParentheses_file fs inputFile lines last :
  fs inputFile = Some (textFile lines ++ last)%list ->
  forallb shortLine lines = true ->
  openLine last = true ->
  validateParentheses fs inputFile =
  (forallb checkParentheses (fileFormulas lines last),
   map notBalancedMessage (rejectedLines (fileFormulas lines last))).
Proof.
  intros Hfile Hlines Hlast. unfold validateParentheses. rewrite Hfile.
  rewrite (validateLines_spec _ 0 true), readLines_file by assumption.
  now rewrite rejectedFrom_0.
Qed.


(** [main] once the command line has four or five entries and the table
    is loaded: the choice of the mode. *)
Lemma main_loaded (fs : FileSystem) (periodicTable : list Element) (argv : list cstring)
  (numElements : Z) (elements : list Element) :
  (length argv = 4 \/ length argv = 5)%nat ->
  loadPeriodicTable fs (nth 1 argv []) periodicTable = LoadReturned numElements elements ->
  numElements <> EXIT_FAILURE ->
  main fs periodicTable argv =
  if strcmp0 (nth 2 argv []) "-v"%string then mainValidate fs argv
  else if strcmp0 (nth 2 argv []) "-ext"%string then mainExpand fs argv
  else if strcmp0 (nth 2 argv []) "-pn"%string then
    mainProtons fs argv (sortPeriodicTable elements numElements)
  else Exited 1 usage fs.
Proof.
  intros Hargc Hload Hnum. unfold main. rewrite Hload.
  replace (negb (Z.of_nat (length argv) =? 4) && negb (Z.of_nat (length argv) =? 5))
    with false by (destruct Hargc as [-> | ->]; reflexivity).
  now apply Z.eqb_neq in Hnum as ->.
Qed.

(** X21: a table of one element counts as a failure to load.  [main]
    compares the number of elements loaded with [EXIT_FAILURE], which is 1:
    with a table file of a single proper entry, as with a table file that
    cannot be opened, every command line of four or five entries ends with
    the message that the load failed, status 1 and no file touched. *)
Theorem main_rejects_table_of_one_element :
  forall (fs : FileSystem) (periodicTable : list Element) (argv : list cstring)
         (entry : TableEntry),
    (length argv = 4 \/ length argv = 5)%nat ->
    (MAX_ELEMENTS <= length periodicTable)%nat ->
    fs (nth 1 argv []) = None \/
    (fs (nth 1 argv []) = Some (tableFile [entry]) /\ properEntry entry = true) ->
    main fs periodicTable argv =
    Exited 1 [line "Failed to load periodic table."%string] fs.
Proof.
  intros fs periodicTable argv entry Hargc Hroom Htable. unfold main.
  replace (negb (Z.of_nat (length argv) =? 4) && negb (Z.of_nat (length argv) =? 5))
    with false by (destruct Hargc as [-> | ->]; reflexivity).
  destruct Htable as [Hnone|[Hfile Hentry]].
  - unfold loadPeriodicTable. now rewrite Hnone.
  - rewrite (loadPeriodicTable_entries fs _ [entry] periodicTable Hfile);
      [reflexivity| |assumption].
    cbn [forallb]. now rewrite Hentry.
Qed.

Lemma main_rejects_table_of_one_element_witness :
  main (oneFile "periodicTable.txt"%string (tableFile [tableLine "H" "1"])) someArray
       (commandLine "periodicTable.txt"%string "-v"%string [list_ascii_of_string "in.txt"]) =
  Exited 1 [line "Failed to load periodic table."%string]
         (oneFile "periodicTable.txt"%string (tableFile [tableLine "H" "1"])).
Proof.
  exact (main_rejects_table_of_one_element
           (oneFile "periodicTable.txt"%string (tableFile [tableLine "H" "1"])) someArray
           (commandLine "periodicTable.txt"%string "-v"%string [list_ascii_of_string "in.txt"])
           (tableLine "H" "1") (or_introl eq_refl) ltac:(vm_compute; lia)
           (or_intror (conj eq_refl eq_refl))).
Defined.

(** X22: an input file that cannot be opened passes for a valid one.
    [validateParentheses] then returns [EXIT_FAILURE], which is true as a
    [bool]: with the table loaded, the mode [-v] reports that the
    parentheses are balanced for all formulas, and the mode [-ext]
    announces that it writes the formulas, writes no file, and ends with
    status 0. *)
Theorem main_takes_missing_input_for_valid :
  forall (fs : FileSystem) (periodicTable elements : list Element) (numElements : Z)
         (table inputFile outputFile : cstring),
    loadPeriodicTable fs table periodicTable = LoadReturned numElements elements ->
    numElements <> EXIT_FAILURE ->
    fs inputFile = None ->
    main fs periodicTable (commandLine table "-v"%string [inputFile]) =
    Exited 0 [line ("Verify balanced parentheses in "%string ++ inputFile);
              line "Parentheses are balanced for all chemical formulas."%string] fs /\
    main fs periodicTable (commandLine table "-ext"%string [inputFile; outputFile]) =
    Exited 0 [line ("Compute extended version of formulas in "%string ++ inputFile);
              line ("Writing formulas to "%string ++ outputFile)] fs.
Proof.
  intros fs periodicTable elements numElements table inputFile outputFile Hload Hnum Hfile.
  split.
  - rewrite (main_loaded fs periodicTable _ numElements elements);
      [|left; reflexivity|exact Hload|exact Hnum].
    unfold commandLine; cbn [nth]. change (strcmp0 "-v"%string "-v"%string) with true. cbv iota.
    unfold mainValidate, validateParentheses. cbn [length nth]. now rewrite Hfile.
  - rewrite (main_loaded fs periodicTable _ numElements elements);
      [|right; reflexivity|exact Hload|exact Hnum].
    unfold commandLine; cbn [nth]. change (strcmp0 "-ext"%string "-v"%string) with false.
    change (strcmp0 "-ext"%string "-ext"%string) with true. cbv iota.
    unfold mainExpand, validateParentheses, formulaProcessor. cbn [length nth].
    now rewrite Hfile.
Qed.

Lemma main_takes_missing_input_for_valid_witness :
  main (oneFile "periodicTable.txt"%string (tableFile scenarioEntries)) someArray
       (commandLine "periodicTable.txt"%string "-v"%string [list_ascii_of_string "no.txt"]) =
  Exited 0 [line "Verify balanced parentheses in no.txt"%string;
            line "Parentheses are balanced for all chemical formulas."%string]
         (oneFile "periodicTable.txt"%string (tableFile scenarioEntries)).
Proof.
  exact (proj1 (main_takes_missing_input_for_valid
                  (oneFile "periodicTable.txt"%string (tableFile scenarioEntries)) someArray
                  (scenarioTable ++ skipn 3 someArray) 3
                  "periodicTable.txt"%string "no.txt"%string "out.txt"%string
                  eq_refl ltac:(discriminate) eq_refl)).
Defined.

(** X23: the modes [-ext] and [-pn] refuse a file with a line that
    [checkParentheses] rejects.  On a text file of lines of at most 1022
    characters, with the table loaded, each of the two modes prints one
    message for every rejected line and the message that it cannot
    proceed, ends with status 1 and touches no file. *)
Theorem main_refuses_unbalanced_input :
  forall (fs : FileSystem) (periodicTable elements : list Element) (numElements : Z)
         (table inputFile outputFile : cstring) (lines : list cstring) (last : cstring),
    loadPeriodicTable fs table periodicTable = LoadReturned numElements elements ->
    numElements <> EXIT_FAILURE ->
    fs inputFile = Some (textFile lines ++ last)%list ->
    noNul (textFile lines ++ last) = true ->
    forallb shortLine lines = true ->
    openLine last = true ->
    forallb checkParentheses (fileFormulas lines last) = false ->
    main fs periodicTable (commandLine table "-ext"%string [inputFile; outputFile]) =
    Exited 1
      (map notBalancedMessage (rejectedLines (fileFormulas lines last))
       ++ [line ("Imbalanced parentheses in file "%string ++ inputFile
                 ++ ". Cannot proceed with formula expansion."%string)]) fs /\
    main fs periodicTable (commandLine table "-pn"%string [inputFile; outputFile]) =
    Exited 1
      (map notBalancedMessage (rejectedLines (fileFormulas lines last))
       ++ [line ("Imbalanced parentheses in file "%string ++ inputFile
                 ++ ". Cannot proceed with calculating protons."%string)]) fs.
Proof.
  intros fs periodicTable elements numElements table inputFile outputFile lines last
         Hload Hnum Hfile _ Hlines Hlast Hrejected.
  pose proof (validateParentheses_file fs inputFile lines last Hfile Hlines Hlast) as Hvalid.
  rewrite Hrejected in Hvalid.
  split; rewrite (main_loaded fs periodicTable _ numElements elements);
    try (right; reflexivity); try exact Hload; try exact Hnum; unfold commandLine; cbn [nth].
  - change (strcmp0 "-ext"%string "-v"%string) with false.
    change (strcmp0 "-ext"%string "-ext"%string) with true. cbv iota.
    unfold mainExpand. cbn [length nth]. now rewrite Hvalid.
  - change (strcmp0 "-pn"%string "-v"%string) with false.
    change (strcmp0 "-pn"%string "-ext"%string) with false.
    change (strcmp0 "-pn"%string "-pn"%string) with true. cbv iota.
    unfold mainProtons. cbn [length nth]. now rewrite Hvalid.
Qed.

Lemma main_refuses_unbalanced_input_witness :
  main (fun name => if strcmp0 name "in.txt"%string
                    then Some (textFile [list_ascii_of_string "H2(O";
                                         list_ascii_of_string "Ca(OH)2"])
                    else oneFile "periodicTable.txt"%string (tableFile scenarioEntries) name)
       someArray
       (commandLine "periodicTable.txt"%string "-pn"%string
                    [list_ascii_of_string "in.txt"; list_ascii_of_string "out.txt"]) =
  Exited 1
    [notBalancedMessage 1;
     line "Imbalanced parentheses in file in.txt. Cannot proceed with calculating protons."%string]
    (fun name => if strcmp0 name "in.txt"%string
                 then Some (textFile [list_ascii_of_string "H2(O";
                                      list_ascii_of_string "Ca(OH)2"])
                 else oneFile "periodicTable.txt"%string (tableFile scenarioEntries) name).
Proof.
  exact (proj2 (main_refuses_unbalanced_input
                  (fun name => if strcmp0 name "in.txt"%string
                               then Some (textFile [list_ascii_of_string "H2(O";
                                                    list_ascii_of_string "Ca(OH)2"])
                               else oneFile "periodicTable.txt"%string
                                            (tableFile scenarioEntries) name)
                  someArray (scenarioTable ++ skipn 3 someArray) 3
                  "periodicTable.txt"%string "in.txt"%string "out.txt"%string
                  [list_ascii_of_string "H2(O"; list_ascii_of_string "Ca(OH)2"] []
                  eq_refl ltac:(discriminate) eq_refl eq_refl eq_refl eq_refl eq_refl)).
Defined.











